(** * sneakpeek-cli: a shallow embedding of [index.js]

    The command line tool zips a directory and posts it to the sneakpeek
    API, labelled with the git revision it was built from.  This file
    embeds the functions of [index.js] and proves properties of them.

    Conventions of the embedding.
    - A JavaScript string is a Rocq [string] holding its UTF-8 bytes (all
      strings the program handles are decoded from UTF-8 by Node, so they
      are well formed).
    - [process.env], the [git] subprocess, the file system, the stream
      events of archiver and the HTTP exchange of superagent are inputs:
      they make up a [World], which the program only reads.
    - Everything the program does to the outside is appended to a trace of
      [event]s; objects that are shared by reference ([DEFAULTS], the
      options object) live in a heap. *)

From stdpp Require Import gmap strings list.
From Stdlib Require Import ZArith Ascii.

(** ** JavaScript values *)

Inductive jsval : Type :=
| JUndefined
| JNull
| JStr (s : string).

Global Instance jsval_eq_dec : EqDecision jsval.
Proof. solve_decision. Defined.

(** [ToBoolean]: what [if (v)], [!v], [a || b] and [a && b] test. *)
Definition js_truthy (v : jsval) : bool :=
  match v with
  | JUndefined | JNull => false
  | JStr EmptyString => false
  | JStr (String _ _) => true
  end.

(** [ToString]: template literals, [encodeURIComponent], property keys. *)
Definition js_to_string (v : jsval) : string :=
  match v with
  | JUndefined => "undefined"
  | JNull => "null"
  | JStr s => s
  end.

(** [a || b] *)
Definition js_or (a b : jsval) : jsval := if js_truthy a then a else b.

(** [v === null || v === undefined] *)
Definition js_nullish (v : jsval) : bool :=
  match v with
  | JUndefined | JNull => true
  | JStr _ => false
  end.

(** How [Array.prototype.join] prints an element: [undefined] and [null]
    give the empty string. *)
Definition join_elem (v : jsval) : string :=
  match v with
  | JUndefined | JNull => EmptyString
  | JStr s => s
  end.

Fixpoint join_strings (sep : string) (l : list string) : string :=
  match l with
  | [] => EmptyString
  | [x] => x
  | x :: rest => x +:+ sep +:+ join_strings sep rest
  end.

Definition js_join (sep : string) (l : list jsval) : string :=
  join_strings sep (join_elem <$> l).

(** ** Builtin string functions *)

Definition hex_digits : list ascii :=
  String.list_ascii_of_string "0123456789ABCDEF".

Definition hex_digit (n : nat) : ascii := nth n hex_digits "0"%char.

(** [%XX] for one byte. *)
Definition percent_byte (c : ascii) : string :=
  let n := nat_of_ascii c in
  String "%"%char (String (hex_digit (n / 16)) (String (hex_digit (n mod 16)) EmptyString)).

Definition in_range (lo hi c : ascii) : bool :=
  (nat_of_ascii lo <=? nat_of_ascii c)%nat && (nat_of_ascii c <=? nat_of_ascii hi)%nat.

(** The characters [encodeURIComponent] leaves alone:
    [A-Z a-z 0-9 - _ . ! ~ * ' ( )]. *)
Definition uri_unreserved (c : ascii) : bool :=
  in_range "A" "Z" c || in_range "a" "z" c || in_range "0" "9" c
  || bool_decide (c ∈ String.list_ascii_of_string "-_.!~*'()").

(** [encodeURIComponent] on a well-formed string: every byte of the UTF-8
    encoding that is not unreserved becomes [%XX]. *)
Fixpoint encodeURIComponent (s : string) : string :=
  match s with
  | EmptyString => EmptyString
  | String c rest =>
      (if uri_unreserved c then String c EmptyString else percent_byte c)
      +:+ encodeURIComponent rest
  end.

Definition bytes (l : list nat) : string :=
  String.string_of_list_ascii (ascii_of_nat <$> l).

(** UTF-8 encodings of the code points [String.prototype.trim] removes:
    WhiteSpace (TAB, VT, FF, SP, NBSP, ZWNBSP and category Zs) and
    LineTerminator (LF, CR, LS, PS). *)
Definition js_whitespace : list string :=
  bytes <$>
    [ [9]; [10]; [11]; [12]; [13]; [32]; [194; 160]; [225; 154; 128];
      [226; 128; 128]; [226; 128; 129]; [226; 128; 130]; [226; 128; 131];
      [226; 128; 132]; [226; 128; 133]; [226; 128; 134]; [226; 128; 135];
      [226; 128; 136]; [226; 128; 137]; [226; 128; 138]; [226; 128; 168];
      [226; 128; 169]; [226; 128; 175]; [226; 129; 159]; [227; 128; 128];
      [239; 187; 191] ].

Fixpoint strip_prefix (p s : string) : option string :=
  match p, s with
  | EmptyString, _ => Some s
  | String a p', String b s' => if decide (a = b) then strip_prefix p' s' else None
  | String _ _, EmptyString => None
  end.

(** Removes one leading white space character, if there is one. *)
Fixpoint strip_one (ws : list string) (s : string) : option string :=
  match ws with
  | [] => None
  | w :: ws' =>
      match strip_prefix w s with
      | Some s' => Some s'
      | None => strip_one ws' s
      end
  end.

(** [fuel] bounds the characters removed; the length of the string is
    enough. *)
Fixpoint trim_start_fuel (fuel : nat) (ws : list string) (s : string) : string :=
  match fuel with
  | O => s
  | S n =>
      match strip_one ws s with
      | Some s' => trim_start_fuel n ws s'
      | None => s
      end
  end.

Definition trim_start (ws : list string) (s : string) : string :=
  trim_start_fuel (String.length s) ws s.

Definition js_trim (s : string) : string :=
  let s1 := trim_start js_whitespace s in
  String.rev (trim_start (String.rev <$> js_whitespace) (String.rev s1)).

Definition dquote : ascii := "034"%char.

(** [replace] with the pattern that matches one double quote at the start. *)
Definition drop_leading_quote (s : string) : string :=
  match s with
  | String c rest => if decide (c = dquote) then rest else s
  | EmptyString => s
  end.

(** [replace] with the pattern that matches one double quote at the end. *)
Definition drop_trailing_quote (s : string) : string :=
  String.rev (drop_leading_quote (String.rev s)).

(** ** Errors and revision data *)

(** The error object superagent rejects with: [status] is the HTTP status
    of a response that is not 2xx, and [undefined] (here [None]) when the
    request got no response. *)
Record http_error : Type := {
  status : option Z;
  detail : string
}.

(** What a [throw] or a rejected promise carries: a thrown string, the
    error of [fs.statSync], the error of archiver, the error a request of
    superagent fails with, and the [Error] a call on the request throws. *)
Inductive exn : Type :=
| ExnString (msg : string)
| ExnStat (msg : string)
| ExnArchive (msg : string)
| ExnHttp (e : http_error)
| ExnError (msg : string).

Inductive reftype_t : Type := tag | branch.

Global Instance reftype_t_eq_dec : EqDecision reftype_t.
Proof. solve_decision. Defined.

(** The object [getCiInfo] and [getGitInfo] build.  [reftype] is only ever
    assigned the literals [tag], [branch] and [null] (here [None]). *)
Record RevisionInfo : Type := {
  sha : jsval;
  reftype : option reftype_t;
  ref : jsval
}.

(** The property key [git.reftype] turns into when it indexes an object. *)
Definition reftype_key (r : option reftype_t) : string :=
  match r with
  | Some tag => "tag"
  | Some branch => "branch"
  | None => "null"
  end.

(** [process.env[name]] *)
Definition env_get (env : gmap string string) (name : string) : jsval :=
  match env !! name with
  | Some v => JStr v
  | None => JUndefined
  end.

Definition getCiInfo (env : gmap string string) : RevisionInfo :=
  let sha := env_get env "CI_BUILD_REF" in
  if js_truthy (env_get env "CI_BUILD_TAG")
  then {| sha := sha; reftype := Some tag; ref := env_get env "CI_BUILD_TAG" |}
  else {| sha := sha; reftype := Some branch; ref := env_get env "CI_BUILD_REF_NAME" |}.

(** The object literal of [sneakpeekUrl].  The keys it is indexed with are
    [tag], [branch] and [null]; none of them names a member of
    [Object.prototype], so only the own properties answer. *)
Definition reftypeToUrlMap : list (string * string) :=
  [("branch", "branches"); ("tag", "tags")].

Fixpoint js_get (o : list (string * string)) (key : string) : jsval :=
  match o with
  | [] => JUndefined
  | (k, v) :: rest => if decide (k = key) then JStr v else js_get rest key
  end.

Definition not_on_ref : string :=
  "Current project is neither on a tag nor a branch".

Definition sneakpeekUrl (base project : jsval) (git : RevisionInfo) : exn + string :=
  let url := [base; JStr "projects"; JStr (encodeURIComponent (js_to_string project))] in
  let entry := js_get reftypeToUrlMap (reftype_key (reftype git)) in
  if negb (js_truthy entry)
  then inl (ExnString not_on_ref)
  else
    let url := url ++ [entry] in
    let url := url ++ [JStr (encodeURIComponent (js_to_string (ref git)))] in
    inr (js_join "/" url).

(** ** The world, the trace and the heap *)

(** How the request ends: with a response that is 2xx, with an error, or
    not at all (no timeout is set, so a request that gets no answer stays
    open). *)
Inductive http_outcome : Type :=
| http_ok (body : string)
| http_fail (e : http_error)
| http_pending.

(** A [progress] event of the request. *)
Record progress_event : Type := {
  loaded : Z;
  total : Z
}.

(** The events of the two streams of [zip]: [error] on the archive and
    [finish] on the output file, which it listens to, and [error] on the
    output file, which it does not. *)
Inductive stream_event : Type :=
| archive_error (msg : string)
| output_finish
| output_error (msg : string).

Inductive stat_result : Type :=
| stat_throws (msg : string)
| stat_ok (isDirectory : bool).

(** What the program reads from outside.
    - [env] is [process.env]: a variable that is not set reads as
      [undefined], one that is set reads as its value, which may be empty.
    - [execSync] answers a command with what it printed (standard error
      included, the command line ends in a redirection of it), decoded to
      a string.  It is keyed by the words the shell makes of the command
      line (see [shell_words]); [None] stands for a command that fails,
      which makes [execSync] throw.
    - [statSync] answers a path with its status or with the error it
      throws.
    - [tmpNameSync] is the name [tmp.tmpNameSync] returns.
    - [stream_events] are the events of the archive and of its output
      file in the order they are emitted, [progress_events] those of the
      request, [response] the way the request ends.
    Byte counts are integers. *)
Record World : Type := {
  env : gmap string string;
  execSync : list string → option string;
  statSync : jsval → stat_result;
  tmpNameSync : string;
  stream_events : list stream_event;
  progress_events : list progress_event;
  response : http_outcome
}.

(** What [console.log] is given. *)
Inductive logged : Type :=
| LString (s : string)
| LBody (body : string)
| LError (e : exn).

Inductive event : Type :=
| console_log (v : logged)
| console_error (s : string)
| exec_call (argv : list string)
| stat_call (path : jsval)
| tmp_name (file : string)
| create_write_stream (file : string)
| archiver_new (format : string) (level : Z)
| archive_pipe (file : string)
| archive_directory (source : jsval)
| archive_finalize
| request_post (url : string)
| request_type (t : string)
| request_set (header : string) (v : jsval)
| request_field (name : string) (v : jsval)
| request_attach (name : string) (file : string)
| request_send
| bar_new (size : Z)
| bar_tick (n : Z).

(** The events that belong to the HTTP request. *)
Definition is_request (ev : event) : bool :=
  match ev with
  | request_post _ | request_type _ | request_set _ _ | request_field _ _
  | request_attach _ _ | request_send => true
  | _ => false
  end.

(** The events that belong to the archive. *)
Definition is_archive (ev : event) : bool :=
  match ev with
  | tmp_name _ | create_write_stream _ | archiver_new _ _ | archive_pipe _
  | archive_directory _ | archive_finalize => true
  | _ => false
  end.

Record State : Type := {
  heap : gmap positive (gmap string jsval);
  trace : list event
}.

Inductive promise (A : Type) : Type :=
| Pending
| Fulfilled (a : A)
| Rejected (e : exn).
Arguments Pending {A}.
Arguments Fulfilled {A} a.
Arguments Rejected {A} e.

(** ** A state and exception monad *)

Definition M (A : Type) : Type := State → (exn + A) * State.

Definition M_ret {A} (a : A) : M A := λ s, (inr a, s).

Definition M_bind {A B} (f : A → M B) (m : M A) : M B :=
  λ s, match m s with
       | (inl e, s') => (inl e, s')
       | (inr a, s') => f a s'
       end.

Global Instance M_mret : MRet M := @M_ret.
Global Instance M_mbind : MBind M := @M_bind.

Definition throw {A} (e : exn) : M A := λ s, (inl e, s).

Definition emit (ev : event) : M unit :=
  λ s, (inr (), {| heap := heap s; trace := trace s ++ [ev] |}).

Definition emit_all (evs : list event) : M unit :=
  λ s, (inr (), {| heap := heap s; trace := trace s ++ evs |}).

Definition lift {A} (r : exn + A) : M A :=
  match r with
  | inl e => throw e
  | inr a => mret a
  end.

(** An object literal: a new object at an address not in use. *)
Definition alloc (o : gmap string jsval) : M positive :=
  λ s, let l := fresh (dom (heap s)) in
       (inr l, {| heap := <[l:=o]> (heap s); trace := trace s |}).

(** [o.key], where [o] is a reference: [undefined] when the object has no
    such property. *)
Definition read_prop (s : State) (l : positive) (key : string) : jsval :=
  default JUndefined (heap s !! l ≫= (.!! key)).

Definition get_prop (l : positive) (key : string) : M jsval :=
  λ s, (inr (read_prop s l key), s).

(** One step of [Object.assign]: every own property of [source] is written
    to [target]. *)
Definition assign_from (target : positive) (h : gmap positive (gmap string jsval))
    (source : positive) : gmap positive (gmap string jsval) :=
  match h !! source with
  | Some o => alter (λ t, o ∪ t) target h
  | None => h
  end.

Definition Object_assign (target : positive) (sources : list positive) : M positive :=
  λ s, (inr target,
        {| heap := foldl (assign_from target) (heap s) sources; trace := trace s |}).

(** [p.then(f)]: [f] runs when [p] is fulfilled; the promise it returns is
    adopted, and what it throws rejects the result. *)
Definition promise_then {A B} (p : promise A) (f : A → M (promise B)) : M (promise B) :=
  λ s, match p with
       | Pending => (inr Pending, s)
       | Rejected e => (inr (Rejected e), s)
       | Fulfilled a =>
           match f a s with
           | (inl e, s') => (inr (Rejected e), s')
           | (inr q, s') => (inr q, s')
           end
       end.

(** [p.catch(g)] *)
Definition promise_catch {A} (p : promise A) (g : exn → M (promise A)) : M (promise A) :=
  λ s, match p with
       | Pending => (inr Pending, s)
       | Fulfilled a => (inr (Fulfilled a), s)
       | Rejected e =>
           match g e s with
           | (inl e', s') => (inr (Rejected e'), s')
           | (inr q, s') => (inr q, s')
           end
       end.

(** ** The program *)

(** The module-level object [DEFAULTS] and the address it lives at. *)
Definition DEFAULTS : positive := 1%positive.

Definition DEFAULTS_object (env : gmap string string) : gmap string jsval :=
  list_to_map
    [ ("path", JNull);
      ("project", JNull);
      ("gitlabProject", JNull);
      ("apiUrl", js_or (env_get env "SNEAKPEEK_API_URL") (JStr "https://api.peek.digitpaint.nl"));
      ("apiKey", js_or (env_get env "SNEAKPEEK_API_KEY") JNull) ].

(** The state after the module is loaded. *)
Definition init_state (env : gmap string string) : State :=
  {| heap := {[ DEFAULTS := DEFAULTS_object env ]}; trace := [] |}.

(** The words the shell makes of [shellescape(command)]: an argument with
    a character outside [A-Z a-z 0-9 _ / : = -] is put between single
    quotes and reaches the command as it is; the others are written bare,
    so that an empty argument leaves no word. *)
Definition shell_words (command : list string) : list string :=
  filter (λ word, word ≠ EmptyString) command.

(** [git(...args)] runs the command and returns the value of its
    [try]/[catch]: the output, trimmed and without one leading and one
    trailing double quote, or [null] when the command fails. *)
Definition git_returns (w : World) (args : list string) : jsval :=
  let command := "git" :: args in
  match execSync w (shell_words command) with
  | Some out =>
      let result := js_trim out in
      JStr (drop_trailing_quote (drop_leading_quote result))
  | None => JNull
  end.

Definition git (w : World) (args : list string) : M jsval :=
  emit (exec_call (shell_words ("git" :: args)));;
  mret (git_returns w args).

Definition show_format : string :=
  "--format=format:" +:+ String dquote ("%H" +:+ String dquote EmptyString).

Definition getGitInfo (w : World) (rev : string) : M RevisionInfo :=
  s ← git w ["show"; show_format; "-s"; rev];
  r ← git w ["describe"; "--tags"; "--exact-match"; rev];
  let info := {| sha := s; reftype := Some tag; ref := r |} in
  info ← (if negb (js_truthy (ref info))
          then r' ← git w ["rev-parse"; "--abbrev-ref"; rev];
               mret {| sha := sha info; reftype := Some branch; ref := r' |}
          else mret info);
  let info := if negb (js_truthy (ref info))
              then {| sha := sha info; reftype := None; ref := ref info |}
              else info in
  mret info.

Definition gitInfo (w : World) : M RevisionInfo :=
  if js_truthy (env_get (env w) "CI")
  then mret (getCiInfo (env w))
  else getGitInfo w "HEAD".

(** What the two handlers of [zip] do to its promise when a stream event
    arrives; a settled promise stays as it is, and no handler listens to
    an error of the output file. *)
Definition deliver (tmpFile : string) (p : promise string) (ev : stream_event)
    : promise string :=
  match p with
  | Pending =>
      match ev with
      | archive_error msg => Rejected (ExnArchive msg)
      | output_finish => Fulfilled tmpFile
      | output_error _ => Pending
      end
  | _ => p
  end.

(** The stream events in the order they come.  An [error] of the output
    file has no listener, so Node raises it as an uncaught exception and
    the process ends: the promise is left as it is and the events after it
    are not delivered. *)
Fixpoint settle (tmpFile : string) (p : promise string) (evs : list stream_event)
    : promise string :=
  match evs with
  | [] => p
  | output_error _ :: _ => p
  | ev :: rest => settle tmpFile (deliver tmpFile p ev) rest
  end.

Definition zip (w : World) (sourcePath : jsval) : M (promise string) :=
  emit (console_log (LString ("Zipping: " +:+ js_to_string sourcePath)));;
  let tmpFile := tmpNameSync w in
  emit (tmp_name tmpFile);;
  emit (create_write_stream tmpFile);;
  emit (archiver_new "zip" 9);;
  emit (archive_pipe tmpFile);;
  emit (archive_directory sourcePath);;
  emit archive_finalize;;
  mret (settle tmpFile Pending (stream_events w)).

(** The object of the [progress] package: [tick] adds to [curr]. *)
Record ProgressBar : Type := {
  bar_total : Z;
  curr : Z
}.

Definition tick (b : ProgressBar) (n : Z) : ProgressBar :=
  {| bar_total := bar_total b; curr := (curr b + n)%Z |}.

(** The variables [bar] and [last] the progress handler closes over. *)
Record progress_vars : Type := {
  bar : option ProgressBar;
  last : Z
}.

(** The handler of the [progress] event: the variables after it, and the
    call it makes. *)
Definition on_progress (v : progress_vars) (e : progress_event) : progress_vars * event :=
  match bar v with
  | None =>
      ({| bar := Some {| bar_total := total e; curr := 0 |}; last := last v |},
       bar_new (total e))
  | Some b =>
      ({| bar := Some (tick b (loaded e - last v)%Z); last := loaded e |},
       bar_tick (loaded e - last v)%Z)
  end.

Fixpoint run_progress (v : progress_vars) (es : list progress_event)
    : progress_vars * list event :=
  match es with
  | [] => (v, [])
  | e :: rest =>
      let '(v1, ev) := on_progress v e in
      let '(v2, evs) := run_progress v1 rest in
      (v2, ev :: evs)
  end.

(** [e.status == 401] *)
Definition status_is_401 (e : exn) : bool :=
  match e with
  | ExnHttp h => bool_decide (status h = Some 401%Z)
  | _ => false
  end.

Definition unauthorized : string :=
  "Unauthorized API access try again with a (differten) API-key".

(** The promise of the request itself. *)
Definition request_promise (w : World) : promise string :=
  match response w with
  | http_ok body => Fulfilled body
  | http_fail e => Rejected (ExnHttp e)
  | http_pending => Pending
  end.

Definition field_val_empty : string := ".field(name, val) val can not be empty".

(** [req.field(name, val)] of superagent: a value that is null or
    undefined is refused with an [Error]; any string, the empty one too,
    becomes a field of the form. *)
Definition req_field (name : string) (val : jsval) : M unit :=
  if js_nullish val
  then throw (ExnError field_val_empty)
  else emit (request_field name val).

Definition upload (w : World) (zipfile : string) (options : positive) : M (promise unit) :=
  apiUrl ← get_prop options "apiUrl";
  emit (console_log (LString ("Uploading to " +:+ js_to_string apiUrl)));;
  metadata ← gitInfo w;
  apiUrl ← get_prop options "apiUrl";
  project ← get_prop options "project";
  url ← lift (sneakpeekUrl apiUrl project metadata);
  emit (request_post url);;
  emit (request_type "form");;
  apiKey ← get_prop options "apiKey";
  (if js_truthy apiKey && negb (bool_decide (apiKey = JStr EmptyString))
   then emit (request_set "Authorization" apiKey)
   else mret ());;
  req_field "sha" (sha metadata);;
  gitlabProject ← get_prop options "gitlabProject";
  req_field "gitlab_project" gitlabProject;;
  emit (request_attach "file" zipfile);;
  emit request_send;;
  emit_all (run_progress {| bar := None; last := 0 |} (progress_events w)).2;;
  p ← promise_then (request_promise w)
        (λ body, emit (console_log (LBody body));; mret (Fulfilled ()));
  promise_catch p
    (λ e, (if status_is_401 e
           then emit (console_error unauthorized)
           else emit (console_error "Upload failed");;
                emit (console_log (LError e)));;
          mret (Fulfilled ())).

Definition validatePath (w : World) (dir : jsval) : M unit :=
  emit (stat_call dir);;
  match statSync w dir with
  | stat_throws msg => throw (ExnStat msg)
  | stat_ok isDirectory =>
      if negb isDirectory
      then throw (ExnString ("Path " +:+ js_to_string dir +:+ " is not a directory"))
      else mret ()
  end.

(** The [argv] object of yargs, as far as [uploadCommand] reads it. *)
Record Argv : Type := {
  argv_project : jsval;
  argv_gitlabProject : jsval;
  argv_path : jsval;
  argv_apiUrl : jsval;
  argv_apiKey : jsval
}.

Definition flags_object (argv : Argv) : gmap string jsval :=
  list_to_map
    [ ("project", argv_project argv);
      ("gitlabProject", argv_gitlabProject argv);
      ("path", argv_path argv);
      ("apiUrl", argv_apiUrl argv);
      ("apiKey", argv_apiKey argv) ].

(** [uploadCommand] returns nothing; the value here is the promise of its
    last statement, which the source drops.  A [throw] of the synchronous
    part is the [inl] of the monad. *)
Definition uploadCommand (w : World) (argv : Argv) : M (promise unit) :=
  target ← alloc ∅;
  flags ← alloc (flags_object argv);
  options ← Object_assign target [DEFAULTS; flags];
  path ← get_prop options "path";
  validatePath w path;;
  p ← zip w path;
  promise_then p (λ zipfile, upload w zipfile options).

(** ** Sample inputs *)

(** A checkout on a branch, run on a developer machine. *)
Definition world_local : World := {|
  env := ∅;
  execSync := λ command,
    match command with
    | ["git"; "show"; _; _; _] =>
        Some (String dquote ("4f2a9c1" +:+ String dquote EmptyString))
    | ["git"; "rev-parse"; _; _] => Some ("main" +:+ bytes [10])
    | _ => None
    end;
  statSync := λ p, if decide (p = JStr "dist") then stat_ok true
                   else if decide (p = JStr "README.md") then stat_ok false
                   else stat_throws "ENOENT: no such file or directory";
  tmpNameSync := "/tmp/tmp-4711";
  stream_events := [output_finish];
  progress_events := [ {| loaded := 10; total := 100 |};
                       {| loaded := 30; total := 100 |};
                       {| loaded := 100; total := 100 |} ];
  response := http_ok "{}"
|}.

(** The same checkout with a detached head that carries no tag: [git
    describe] fails and [git rev-parse --abbrev-ref] prints [HEAD]. *)
Definition world_detached : World := {|
  env := env world_local;
  execSync := λ command,
    match command with
    | ["git"; "show"; _; _; _] =>
        Some (String dquote ("4f2a9c1" +:+ String dquote EmptyString))
    | ["git"; "rev-parse"; _; _] => Some ("HEAD" +:+ bytes [10])
    | _ => None
    end;
  statSync := statSync world_local;
  tmpNameSync := tmpNameSync world_local;
  stream_events := stream_events world_local;
  progress_events := progress_events world_local;
  response := response world_local
|}.

(** No git repository at all: every command fails. *)
Definition world_no_repo : World := {|
  env := env world_local;
  execSync := λ _, None;
  statSync := statSync world_local;
  tmpNameSync := tmpNameSync world_local;
  stream_events := stream_events world_local;
  progress_events := progress_events world_local;
  response := response world_local
|}.

(** A world that differs from [world_local] in the environment, the
    stream events and the response. *)
Definition world_with (e : gmap string string) (evs : list stream_event)
    (r : http_outcome) : World := {|
  env := e;
  execSync := execSync world_local;
  statSync := statSync world_local;
  tmpNameSync := tmpNameSync world_local;
  stream_events := evs;
  progress_events := progress_events world_local;
  response := r
|}.

Definition env_ci_tag : gmap string string :=
  list_to_map [("CI", "1"); ("CI_BUILD_REF", "abc123"); ("CI_BUILD_TAG", "v1.2.0")].

Definition env_ci_branch : gmap string string :=
  list_to_map [("CI", "1"); ("CI_BUILD_REF", "abc123"); ("CI_BUILD_REF_NAME", "main")].

(** [CI_BUILD_TAG] is set, to the empty string. *)
Definition env_ci_empty_tag : gmap string string :=
  list_to_map [("CI", "1"); ("CI_BUILD_REF", "abc123");
               ("CI_BUILD_TAG", EmptyString); ("CI_BUILD_REF_NAME", "main")].

Definition env_ci_bare : gmap string string :=
  list_to_map [("CI", "true")].

Definition argv_demo : Argv := {|
  argv_project := JStr "demo";
  argv_gitlabProject := JStr "group/demo";
  argv_path := JStr "dist";
  argv_apiUrl := JStr "https://api.example.com";
  argv_apiKey := JStr "s3cret"
|}.

(** A path that exists and is a file. *)
Definition argv_readme : Argv := {|
  argv_project := argv_project argv_demo;
  argv_gitlabProject := argv_gitlabProject argv_demo;
  argv_path := JStr "README.md";
  argv_apiUrl := argv_apiUrl argv_demo;
  argv_apiKey := argv_apiKey argv_demo
|}.

(** The archive cannot be written: the output file reports an error. *)
Definition world_disk_full : World := {|
  env := env world_local;
  execSync := execSync world_local;
  statSync := statSync world_local;
  tmpNameSync := tmpNameSync world_local;
  stream_events := [output_error "ENOSPC: no space left on device, write"];
  progress_events := progress_events world_local;
  response := response world_local
|}.

(** A state in which the options of [argv_demo] are the object at [2]. *)
Definition state_demo : State :=
  {| heap := <[2%positive := flags_object argv_demo]>
               {[ DEFAULTS := DEFAULTS_object ∅ ]};
     trace := [] |}.

(** The [reftype-plural] of the URL scheme. *)
Definition reftype_plural (r : reftype_t) : string :=
  match r with
  | branch => "branches"
  | tag => "tags"
  end.

(** What [zip] does before it returns its promise. *)
Definition zip_calls (w : World) (sourcePath : jsval) : list event :=
  [ console_log (LString ("Zipping: " +:+ js_to_string sourcePath));
    tmp_name (tmpNameSync w);
    create_write_stream (tmpNameSync w);
    archiver_new "zip" 9;
    archive_pipe (tmpNameSync w);
    archive_directory sourcePath;
    archive_finalize ].

(** What [upload] prints when the request has failed with [e]. *)
Definition failure_report (e : http_error) : list event :=
  if bool_decide (status e = Some 401%Z)
  then [console_error unauthorized]
  else [console_error "Upload failed"; console_log (LError (ExnHttp e))].

(** The calls [upload] makes on the request before it gives it a field,
    for the options object at [options] in state [s]. *)
Definition request_head (s : State) (options : positive) (url : string) : list event :=
  [request_post url; request_type "form"]
  ++ (if js_truthy (read_prop s options "apiKey")
      then [request_set "Authorization" (read_prop s options "apiKey")]
      else []).

(** The fields and the file of the request, and its dispatch. *)
Definition request_body (s : State) (options : positive) (zipfile : string)
    (info : RevisionInfo) : list event :=
  [request_field "sha" (sha info);
   request_field "gitlab_project" (read_prop s options "gitlabProject");
   request_attach "file" zipfile;
   request_send].

(** What [upload] prints when the request has ended, and the promise it
    returns then. *)
Definition request_report (w : World) : list event :=
  match response w with
  | http_ok body => [console_log (LBody body)]
  | http_fail e => failure_report e
  | http_pending => []
  end.

Definition request_result (w : World) : promise unit :=
  match response w with
  | http_pending => Pending
  | _ => Fulfilled ()
  end.

(** The bytes loaded between consecutive events, counted from [prev]. *)
Fixpoint deltas (prev : Z) (es : list progress_event) : list Z :=
  match es with
  | [] => []
  | e :: rest => (loaded e - prev)%Z :: deltas (loaded e) rest
  end.

(** ** Predicates on strings used in the statements *)

(** Every character of [s] satisfies [p]. *)
Fixpoint string_forallb (p : ascii → bool) (s : string) : bool :=
  match s with
  | EmptyString => true
  | String c rest => p c && string_forallb p rest
  end.

(** A character [encodeURIComponent] can produce: an unreserved one or the
    percent sign. *)
Definition uri_safe (c : ascii) : bool :=
  uri_unreserved c || bool_decide (c = "%"%char).

(** The value of a hexadecimal digit, and the byte two digits stand for. *)
Definition hex_value (c : ascii) : nat :=
  default 0%nat (fst <$> list_find (λ d, d = c) hex_digits).

Definition byte_of_hex (hi lo : ascii) : ascii :=
  ascii_of_nat (16 * hex_value hi + hex_value lo).

(** A printable ASCII character other than the space and the double
    quote. *)
Definition plain_char (c : ascii) : bool :=
  in_range "!" "~" c && negb (bool_decide (c = dquote)).

(** A line feed, which ends what git prints. *)
Definition newline : string := String "010"%char EmptyString.

(** * Properties *)

(** ** How the monadic functions run *)

(** Unfolds the monad down to functions on states. *)
Ltac run_m :=
  unfold mbind, mret, M_mbind, M_mret, M_bind, M_ret, lift, throw, emit, emit_all;
  cbn [fst snd heap trace].

Lemma git_run w args s :
  git w args s
  = (inr (git_returns w args),
     {| heap := heap s; trace := trace s ++ [exec_call (shell_words ("git" :: args))] |}).
Proof. reflexivity. Qed.

Lemma js_truthy_false v :
  js_truthy v = false ↔ v = JUndefined ∨ v = JNull ∨ v = JStr EmptyString.
Proof.
  destruct v as [| |[|c r]]; cbn; split; intros H; try done; auto.
  destruct H as [H|[H|H]]; discriminate.
Qed.

Lemma env_get_truthy env0 name :
  js_truthy (env_get env0 name) = true
  ↔ ∃ v, env0 !! name = Some v ∧ v ≠ EmptyString.
Proof.
  unfold env_get. destruct (env0 !! name) as [[|c r]|]; cbn; split; intros H;
    try done; try (destruct H as (v & Hv & Hne); congruence).
  exists (String c r). done.
Qed.

(** [getGitInfo] never throws and leaves the heap alone; what it adds to
    the trace are calls of [git]. *)
Lemma getGitInfo_run w rev :
  ∃ info evs,
    (∀ s, getGitInfo w rev s
          = (inr info, {| heap := heap s; trace := trace s ++ evs |}))
    ∧ Forall (λ ev, ∃ a, ev = exec_call a) evs.
Proof.
  unfold getGitInfo. run_m. unfold git. run_m.
  destruct (js_truthy (git_returns w ["describe"; "--tags"; "--exact-match"; rev])) eqn:Ht;
    cbn [negb ref sha].
  - eexists _, [_; _]. split.
    + intros s. rewrite Ht. cbn. rewrite <- app_assoc. reflexivity.
    + repeat constructor; eauto.
  - eexists _, [_; _; _]. split.
    + intros s. rewrite Ht. cbn. rewrite <- !app_assoc. reflexivity.
    + repeat constructor; eauto.
Qed.

Lemma gitInfo_run w :
  ∃ info evs,
    (∀ s, gitInfo w s
          = (inr info, {| heap := heap s; trace := trace s ++ evs |}))
    ∧ Forall (λ ev, ∃ a, ev = exec_call a) evs.
Proof.
  unfold gitInfo. destruct (js_truthy (env_get (env w) "CI")).
  - exists (getCiInfo (env w)), []. split; [|constructor].
    intros [h t]. run_m. rewrite app_nil_r. reflexivity.
  - apply getGitInfo_run.
Qed.

Lemma apiKey_test v :
  js_truthy v && negb (bool_decide (v = JStr EmptyString)) = js_truthy v.
Proof. destruct v as [| |[|c r]]; reflexivity. Qed.

(** [upload], step by step: the URL is built after the revision is
    resolved and before the request exists; each of the two fields is
    refused when its value is null or undefined, and only after both is
    the request sent. *)
Lemma upload_run w zipfile options st info evs :
  (∀ s, gitInfo w s = (inr info, {| heap := heap s; trace := trace s ++ evs |})) →
  let announce :=
    console_log (LString ("Uploading to " +:+ js_to_string (read_prop st options "apiUrl"))) in
  upload w zipfile options st =
  match sneakpeekUrl (read_prop st options "apiUrl") (read_prop st options "project") info with
  | inl e => (inl e, {| heap := heap st; trace := trace st ++ announce :: evs |})
  | inr url =>
      let head := announce :: evs ++ request_head st options url in
      if js_nullish (sha info)
      then (inl (ExnError field_val_empty),
            {| heap := heap st; trace := trace st ++ head |})
      else if js_nullish (read_prop st options "gitlabProject")
      then (inl (ExnError field_val_empty),
            {| heap := heap st;
               trace := trace st ++ head ++ [request_field "sha" (sha info)] |})
      else (inr (request_result w),
            {| heap := heap st;
               trace := trace st ++ head
                        ++ request_body st options zipfile info
                        ++ (run_progress {| bar := None; last := 0 |}
                              (progress_events w)).2
                        ++ request_report w |})
  end.
Proof.
  intros Hgit announce. subst announce.
  unfold upload, get_prop, request_head, request_body, read_prop, req_field. run_m.
  rewrite Hgit. cbn [heap trace].
  destruct (sneakpeekUrl _ _ info) as [e|url]; run_m.
  - rewrite <- app_assoc. reflexivity.
  - unfold read_prop. cbn [heap trace]. rewrite apiKey_test.
    unfold promise_then, promise_catch, request_promise, request_report, request_result.
    destruct (js_truthy _); cbn [heap trace];
      (destruct (js_nullish (sha info)); run_m;
       [cbn; rewrite <- ?app_assoc; cbn; rewrite <- ?app_assoc; reflexivity|]);
      (destruct (js_nullish _); run_m;
       [cbn; rewrite <- ?app_assoc; cbn; rewrite <- ?app_assoc; reflexivity|]);
      destruct (response w) as [body|e|]; cbn; unfold failure_report, status_is_401;
      try destruct (bool_decide (status e = Some 401%Z)); cbn;
      rewrite <- ?app_assoc; cbn; rewrite <- ?app_assoc, ?app_nil_r; reflexivity.
Qed.

Lemma zip_run w sourcePath s :
  zip w sourcePath s
  = (inr (settle (tmpNameSync w) Pending (stream_events w)),
     {| heap := heap s; trace := trace s ++ zip_calls w sourcePath |}).
Proof.
  unfold zip, zip_calls. run_m. rewrite <- !app_assoc. reflexivity.
Qed.

(** A settled promise ignores the stream events that follow. *)
Lemma settle_settled tmpFile (p : promise string) evs :
  p ≠ Pending → settle tmpFile p evs = p.
Proof.
  intros Hp. induction evs as [|ev evs IH]; [done|].
  destruct ev; cbn [settle]; [| |reflexivity];
    (destruct p; [done| |]; exact IH).
Qed.

(** The promise of [zip] is decided by the first stream event. *)
Lemma settle_first tmpFile evs :
  settle tmpFile Pending evs
  = match evs with
    | archive_error msg :: _ => Rejected (ExnArchive msg)
    | output_finish :: _ => Fulfilled tmpFile
    | _ => Pending
    end.
Proof.
  destruct evs as [|[msg| |msg] evs]; cbn [settle deliver]; try reflexivity;
    apply settle_settled; discriminate.
Qed.

(** The first three statements of [uploadCommand]: the merged options are
    a new object, and every object that was there before is as it was. *)
Lemma uploadCommand_run w argv st :
  let options := fresh (dom (heap st)) in
  ∃ h' T,
    (options ∉ dom (heap st))
    ∧ (∀ l, l ∈ dom (heap st) → h' !! l = heap st !! l)
    ∧ h' !! options = Some (flags_object argv ∪ T)
    ∧ (∀ D, heap st !! DEFAULTS = Some D → T = D)
    ∧ uploadCommand w argv st
      = M_bind (λ _, M_bind (λ p, promise_then p (λ zipfile, upload w zipfile options))
                       (zip w (argv_path argv)))
          (validatePath w (argv_path argv))
          {| heap := h'; trace := trace st |}.
Proof.
  intros options.
  set (h := heap st).
  set (h1 := <[options := ∅]> h).
  set (flags := fresh (dom h1)).
  set (h2 := <[flags := flags_object argv]> h1).
  assert (Hfresh : options ∉ dom h) by apply is_fresh.
  assert (Hflags : flags ∉ dom h1) by apply is_fresh.
  assert (Hne : flags ≠ options).
  { intros Heq. apply Hflags. rewrite Heq. unfold h1. set_solver. }
  assert (Hold : ∀ l, l ∈ dom h → l ≠ options ∧ l ≠ flags).
  { intros l Hl. split; intros ->; [done|]. apply Hflags. unfold h1. set_solver. }
  assert (H2o : h2 !! options = Some ∅).
  { unfold h2, h1. rewrite lookup_insert_ne by done. apply lookup_insert_eq. }
  assert (H2f : h2 !! flags = Some (flags_object argv)).
  { unfold h2. apply lookup_insert_eq. }
  set (h3 := assign_from options h2 DEFAULTS).
  assert (H3 : ∃ T, h3 !! options = Some T
                 ∧ (∀ l, l ≠ options → h3 !! l = h2 !! l)
                 ∧ (∀ D, h !! DEFAULTS = Some D → T = D)).
  { unfold h3, assign_from. destruct (h2 !! DEFAULTS) as [D|] eqn:HD.
    - exists (D ∪ ∅). split; [|split].
      + rewrite lookup_alter_eq, H2o. reflexivity.
      + intros l Hl. apply lookup_alter_ne. done.
      + intros D' HD'. destruct (Hold DEFAULTS) as [Ho Hf].
        { apply elem_of_dom. eauto. }
        unfold h2, h1 in HD. rewrite !lookup_insert_ne in HD by done.
        rewrite (right_id_L ∅ (∪)). congruence.
    - exists ∅. split; [done|split; [done|]].
      intros D' HD'. destruct (Hold DEFAULTS) as [Ho Hf].
      { apply elem_of_dom. eauto. }
      unfold h2, h1 in HD. rewrite !lookup_insert_ne in HD by done. congruence. }
  destruct H3 as (T & H3o & H3other & H3D).
  assert (H3f : h3 !! flags = Some (flags_object argv)).
  { rewrite H3other by done. exact H2f. }
  assert (H4 : assign_from options h3 flags
               = alter (λ t, flags_object argv ∪ t) options h3).
  { unfold assign_from. rewrite H3f. reflexivity. }
  exists (assign_from options h3 flags), T. rewrite H4.
  split; [exact Hfresh|]. split; [|split; [|split]].
  - intros l Hl. destruct (Hold l Hl) as [Ho Hf].
    rewrite lookup_alter_ne by done. rewrite H3other by done.
    unfold h2, h1. rewrite !lookup_insert_ne by done. reflexivity.
  - rewrite lookup_alter_eq, H3o. reflexivity.
  - exact H3D.
  - unfold uploadCommand, alloc, Object_assign, get_prop. run_m.
    unfold read_prop. cbn [heap foldl].
    change (fresh (dom (heap st))) with options.
    change (<[options:=∅]> (heap st)) with h1.
    change (fresh (dom h1)) with flags.
    change (<[flags:=flags_object argv]> h1) with h2.
    change (assign_from options h2 DEFAULTS) with h3. rewrite H4.
    rewrite lookup_alter_eq, H3o. cbn.
    rewrite (lookup_union_Some_l _ _ _ (argv_path argv)) by reflexivity.
    reflexivity.
Qed.

Lemma validatePath_run w dir s :
  validatePath w dir s
  = (match statSync w dir with
     | stat_throws msg => inl (ExnStat msg)
     | stat_ok false =>
         inl (ExnString ("Path " +:+ js_to_string dir +:+ " is not a directory"))
     | stat_ok true => inr ()
     end,
     {| heap := heap s; trace := trace s ++ [stat_call dir] |}).
Proof.
  unfold validatePath. run_m. destruct (statSync w dir) as [msg|[|]]; reflexivity.
Qed.

(** [uploadCommand] after the options are merged: validation, then the
    archive, then, only for a fulfilled archive promise, the upload. *)
Lemma pipeline_run w path options s :
  let s1 := {| heap := heap s; trace := trace s ++ [stat_call path] |} in
  let s2 := {| heap := heap s; trace := trace s ++ stat_call path :: zip_calls w path |} in
  M_bind (λ _, M_bind (λ p, promise_then p (λ zipfile, upload w zipfile options))
                 (zip w path))
    (validatePath w path) s
  = match statSync w path with
    | stat_throws msg => (inl (ExnStat msg), s1)
    | stat_ok false =>
        (inl (ExnString ("Path " +:+ js_to_string path +:+ " is not a directory")), s1)
    | stat_ok true =>
        match settle (tmpNameSync w) Pending (stream_events w) with
        | Pending => (inr Pending, s2)
        | Rejected e => (inr (Rejected e), s2)
        | Fulfilled zipfile =>
            match upload w zipfile options s2 with
            | (inl e, s') => (inr (Rejected e), s')
            | (inr q, s') => (inr q, s')
            end
        end
    end.
Proof.
  intros s1 s2. unfold M_bind. rewrite validatePath_run.
  destruct (statSync w path) as [msg|[|]]; try reflexivity.
  rewrite zip_run. cbn [heap trace]. rewrite <- app_assoc. cbn [app].
  unfold promise_then.
  destruct (settle (tmpNameSync w) Pending (stream_events w)); reflexivity.
Qed.

Lemma upload_heap w zipfile options s :
  heap (upload w zipfile options s).2 = heap s.
Proof.
  destruct (gitInfo_run w) as (info & evs & Hrun & _).
  rewrite (upload_run _ _ _ _ _ _ Hrun). cbv zeta.
  destruct (sneakpeekUrl _ _ info); [reflexivity|].
  destruct (js_nullish (sha info)); [reflexivity|].
  destruct (js_nullish _); reflexivity.
Qed.

Lemma pipeline_heap w path options s :
  heap (M_bind (λ _, M_bind (λ p, promise_then p (λ zipfile, upload w zipfile options))
                       (zip w path))
          (validatePath w path) s).2 = heap s.
Proof.
  rewrite pipeline_run.
  destruct (statSync w path) as [msg|[|]]; try reflexivity.
  destruct (settle _ _ _) as [|zipfile|e]; try reflexivity.
  match goal with |- context [upload w zipfile options ?s2] =>
    pose proof (upload_heap w zipfile options s2) as Hh;
    destruct (upload w zipfile options s2) as [[e|q] s'] end; exact Hh.
Qed.

Lemma last_cons_default (ls : list Z) x l :
  List.last (x :: ls) l = List.last ls x.
Proof.
  revert x l. induction ls as [|y ls IH]; intros x l; [done|].
  change (List.last (x :: y :: ls) l) with (List.last (y :: ls) l).
  rewrite (IH y l). symmetry. apply (IH y x).
Qed.

(** The handler once the bar exists: every event ticks by what was loaded
    since the value kept in [last]. *)
Lemma run_progress_ticks b l es :
  run_progress {| bar := Some b; last := l |} es
  = ({| bar := Some (tick b (List.last (loaded <$> es) l - l));
        last := List.last (loaded <$> es) l |},
     bar_tick <$> deltas l es).
Proof.
  revert b l. induction es as [|e es IH]; intros b l.
  - cbn. unfold tick. rewrite Z.sub_diag, Z.add_0_r. destruct b; reflexivity.
  - cbn [run_progress on_progress bar last deltas].
    rewrite IH. rewrite !fmap_cons, last_cons_default.
    assert (Hsum : ∀ x, (curr b + (loaded e - l) + (x - loaded e) = curr b + (x - l))%Z)
      by (intros; lia).
    unfold tick. cbn. rewrite Hsum. reflexivity.
Qed.

(** ** The URL of an upload *)

(** C1: for every RevisionInfo whose reftype is neither tag nor branch,
    [sneakpeekUrl] fails with the message that the project is neither on a
    tag nor a branch; and an [upload] whose revision resolves to such a
    RevisionInfo throws that error having made no call on the HTTP request:
    what it did until then is the announcement on the console and the git
    commands. *)
Theorem unresolved_reftype_fails_before_request (info : RevisionInfo) :
  reftype info ≠ Some tag →
  reftype info ≠ Some branch →
  (∀ base project,
     sneakpeekUrl base project info
     = inl (ExnString "Current project is neither on a tag nor a branch"))
  ∧ (∀ w zipfile options st,
       (gitInfo w st).1 = inr info →
       ∃ evs,
         upload w zipfile options st
         = (inl (ExnString "Current project is neither on a tag nor a branch"),
            {| heap := heap st; trace := trace st ++ evs |})
         ∧ Forall (λ ev, is_request ev = false) evs).
Proof.
  intros Htag Hbranch.
  assert (Hnone : reftype info = None).
  { destruct (reftype info) as [[|]|]; congruence. }
  assert (Hurl : ∀ base project,
             sneakpeekUrl base project info = inl (ExnString not_on_ref)).
  { intros base project. unfold sneakpeekUrl. rewrite Hnone. reflexivity. }
  split; [exact Hurl|].
  intros w zipfile options st Hinfo.
  destruct (gitInfo_run w) as (info' & evs & Hrun & Hexec).
  assert (info' = info) as ->.
  { rewrite Hrun in Hinfo. cbn in Hinfo. congruence. }
  rewrite (upload_run _ _ _ _ _ _ Hrun), Hurl.
  eexists. split; [reflexivity|].
  constructor; [reflexivity|].
  eapply Forall_impl; [exact Hexec|].
  intros ev [a ->]. reflexivity.
Qed.

Lemma unresolved_reftype_fails_before_request_witness :
  (gitInfo world_no_repo state_demo).1
  = inr {| sha := JNull; reftype := None; ref := JNull |}
  ∧ ∃ evs,
      upload world_no_repo "/tmp/tmp-4711" 2%positive state_demo
      = (inl (ExnString "Current project is neither on a tag nor a branch"),
         {| heap := heap state_demo; trace := trace state_demo ++ evs |})
      ∧ Forall (λ ev, is_request ev = false) evs.
Proof.
  split; [reflexivity|].
  apply (unresolved_reftype_fails_before_request
           {| sha := JNull; reftype := None; ref := JNull |}); [done|done|].
  reflexivity.
Defined.

(** C2: for every API base, project string and RevisionInfo whose reftype
    is tag or branch, the URL is
    base/projects/encoded project/plural of the reftype/encoded ref,
    where branch gives branches and tag gives tags; for project demo on
    branch main and base https://api.example.com it is
    https://api.example.com/projects/demo/branches/main. *)
Theorem sneakpeekUrl_format :
  (∀ (apiUrl project : string) (r : reftype_t) (s rf : jsval),
     sneakpeekUrl (JStr apiUrl) (JStr project)
       {| sha := s; reftype := Some r; ref := rf |}
     = inr (apiUrl +:+ "/projects/" +:+ encodeURIComponent project +:+ "/"
            +:+ reftype_plural r +:+ "/" +:+ encodeURIComponent (js_to_string rf)))
  ∧ sneakpeekUrl (JStr "https://api.example.com") (JStr "demo")
      {| sha := JStr "abc123"; reftype := Some branch; ref := JStr "main" |}
    = inr "https://api.example.com/projects/demo/branches/main".
Proof.
  split; [|reflexivity].
  intros apiUrl project r s rf. destruct r; reflexivity.
Qed.

(** ** Resolving the revision *)

(** C3, as stated, fails: a CI variable that is set to the empty string is
    set, but JavaScript tests it as false.  With CI_BUILD_TAG set and empty
    the revision is the branch main, not a tag. *)
Lemma ci_empty_tag_is_a_branch :
  is_Some (env_ci_empty_tag !! "CI")
  ∧ env_ci_empty_tag !! "CI_BUILD_TAG" = Some EmptyString
  ∧ (gitInfo (world_with env_ci_empty_tag [] (http_ok "{}")) state_demo).1
    = inr {| sha := JStr "abc123"; reftype := Some branch; ref := JStr "main" |}
  ∧ reftype (getCiInfo env_ci_empty_tag) ≠ Some tag.
Proof. repeat split; [eexists; reflexivity | discriminate]. Qed.

(** C3, amended: when CI is set to a non-empty value, the revision is read
    from the environment and nothing else is done; sha is CI_BUILD_REF; if
    CI_BUILD_TAG is set to a non-empty value the reftype is tag and ref is
    that value, and if it is unset or empty the reftype is branch and ref
    is CI_BUILD_REF_NAME. *)
Theorem ci_revision (w : World) (st : State) (ci : string) :
  env w !! "CI" = Some ci →
  ci ≠ EmptyString →
  gitInfo w st = (inr (getCiInfo (env w)), st)
  ∧ sha (getCiInfo (env w)) = env_get (env w) "CI_BUILD_REF"
  ∧ (∀ t, env w !! "CI_BUILD_TAG" = Some t → t ≠ EmptyString →
       reftype (getCiInfo (env w)) = Some tag
       ∧ ref (getCiInfo (env w)) = JStr t)
  ∧ (env w !! "CI_BUILD_TAG" = None ∨ env w !! "CI_BUILD_TAG" = Some EmptyString →
       reftype (getCiInfo (env w)) = Some branch
       ∧ ref (getCiInfo (env w)) = env_get (env w) "CI_BUILD_REF_NAME").
Proof.
  intros Hci Hne.
  assert (Hmode : js_truthy (env_get (env w) "CI") = true).
  { apply env_get_truthy. eauto. }
  split; [|split; [|split]].
  - unfold gitInfo. rewrite Hmode. reflexivity.
  - unfold getCiInfo.
    destruct (js_truthy (env_get (env w) "CI_BUILD_TAG")); reflexivity.
  - intros t Ht Htne.
    assert (Htag : js_truthy (env_get (env w) "CI_BUILD_TAG") = true).
    { apply env_get_truthy. eauto. }
    unfold getCiInfo. rewrite Htag. cbn. unfold env_get. rewrite Ht. done.
  - intros Ht.
    assert (Htag : js_truthy (env_get (env w) "CI_BUILD_TAG") = false).
    { unfold env_get. destruct Ht as [-> | ->]; reflexivity. }
    unfold getCiInfo. rewrite Htag. done.
Qed.

Lemma ci_revision_witness :
  (gitInfo (world_with env_ci_tag [] (http_ok "{}")) state_demo).1
  = inr {| sha := JStr "abc123"; reftype := Some tag; ref := JStr "v1.2.0" |}
  ∧ reftype (getCiInfo env_ci_branch) = Some branch
  ∧ ref (getCiInfo env_ci_branch) = JStr "main".
Proof.
  split.
  - destruct (ci_revision (world_with env_ci_tag [] (http_ok "{}")) state_demo "1")
      as (Hrun & _); [reflexivity | discriminate |].
    rewrite Hrun. reflexivity.
  - destruct (ci_revision (world_with env_ci_branch [] (http_ok "{}")) state_demo "1")
      as (_ & _ & _ & Hbranch); [reflexivity | discriminate |].
    apply Hbranch. left. reflexivity.
Defined.

(** C4 at the input where the code fails it: on a detached head without a
    tag, which is on neither a tag nor a branch, the tag query fails and
    the branch-name query succeeds and prints HEAD, the generic name git
    gives when there is no branch.  The RevisionInfo is then the branch
    HEAD and its reftype is not null. *)
Lemma detached_head_is_a_branch :
  git_returns world_detached ["describe"; "--tags"; "--exact-match"; "HEAD"] = JNull
  ∧ git_returns world_detached ["rev-parse"; "--abbrev-ref"; "HEAD"] = JStr "HEAD"
  ∧ (getGitInfo world_detached "HEAD" state_demo).1
    = inr {| sha := JStr "4f2a9c1"; reftype := Some branch; ref := JStr "HEAD" |}
  ∧ (∀ info, (gitInfo world_detached state_demo).1 = inr info → reftype info ≠ None).
Proof.
  repeat split. intros info Hinfo. vm_compute in Hinfo.
  injection Hinfo as <-. discriminate.
Qed.

(** Reads an explicit list to refute a membership in it. *)
Ltac not_in_list H :=
  repeat (apply elem_of_cons in H as [H|H]; [discriminate H|]); inversion H.

(** C9, as stated, fails for the sha: with CI_BUILD_REF unset the sha is
    undefined, and superagent refuses an undefined value for a field.
    [upload] throws at the field sha: no field of the form has the
    undefined sha as its value and the request is not sent. *)
Lemma ci_undefined_sha_stops_upload :
  let w := world_with env_ci_bare [output_finish] (http_ok "{}") in
  (gitInfo w state_demo).1
  = inr {| sha := JUndefined; reftype := Some branch; ref := JUndefined |}
  ∧ (upload w "/tmp/tmp-4711" 2%positive state_demo).1
    = inl (ExnError ".field(name, val) val can not be empty")
  ∧ (request_field "sha" JUndefined
     ∉ trace (upload w "/tmp/tmp-4711" 2%positive state_demo).2)
  ∧ (request_send ∉ trace (upload w "/tmp/tmp-4711" 2%positive state_demo).2).
Proof.
  cbv zeta. split; [reflexivity|]. split; [reflexivity|].
  split; intros Hin; vm_compute in Hin; not_in_list Hin.
Qed.

(** C9, amended: in CI mode (CI has a non-empty value, so [gitInfo]
    answers with [getCiInfo]) the reftype of the RevisionInfo is tag or
    branch, never null, also when CI_BUILD_TAG and CI_BUILD_REF_NAME are
    both unset; so the URL is always built and the request is created with
    it.  The ref is printed into the URL as it is, undefined when both
    variables are unset.  The sha is handed to the form field sha as it
    is: when CI_BUILD_REF is set, to whatever value, that value is the
    field; when it is unset the sha is undefined, the field is refused and
    [upload] throws before any field is set and before the request is
    sent. *)
Theorem ci_reftype_always_resolved (w : World) (zipfile : string)
    (options : positive) (st : State) :
  js_truthy (env_get (env w) "CI") = true →
  let info := getCiInfo (env w) in
  gitInfo w st = (inr info, st)
  ∧ (reftype info = Some tag ∨ reftype info = Some branch)
  ∧ sha info = env_get (env w) "CI_BUILD_REF"
  ∧ (env w !! "CI_BUILD_TAG" = None → env w !! "CI_BUILD_REF_NAME" = None →
       reftype info = Some branch ∧ ref info = JUndefined
       ∧ ∀ apiUrl project : string,
           sneakpeekUrl (JStr apiUrl) (JStr project) info
           = inr (apiUrl +:+ "/projects/" +:+ encodeURIComponent project
                  +:+ "/branches/undefined"))
  ∧ ∃ r url pre post,
      reftype info = Some r
      ∧ sneakpeekUrl (read_prop st options "apiUrl") (read_prop st options "project") info
        = inr url
      ∧ url = js_join "/"
                [ read_prop st options "apiUrl"; JStr "projects";
                  JStr (encodeURIComponent (js_to_string (read_prop st options "project")));
                  JStr (reftype_plural r);
                  JStr (encodeURIComponent (js_to_string (ref info))) ]
      ∧ trace (upload w zipfile options st).2
        = pre ++ request_post url :: request_type "form" :: post
      ∧ (∀ v, env w !! "CI_BUILD_REF" = Some v → request_field "sha" (JStr v) ∈ post)
      ∧ (env w !! "CI_BUILD_REF" = None →
           (upload w zipfile options st).1
           = inl (ExnError ".field(name, val) val can not be empty")
           ∧ Forall (λ ev, ev ≠ request_send ∧ ∀ name v, ev ≠ request_field name v)
               post).
Proof.
  intros Hci info.
  assert (Hrun : ∀ s, gitInfo w s
                      = (inr info, {| heap := heap s; trace := trace s ++ [] |})).
  { intros [h t]. unfold gitInfo. rewrite Hci. run_m. rewrite app_nil_r. reflexivity. }
  assert (Hsha : sha info = env_get (env w) "CI_BUILD_REF").
  { unfold info, getCiInfo.
    destruct (js_truthy (env_get (env w) "CI_BUILD_TAG")); reflexivity. }
  assert (Hr : ∃ r, reftype info = Some r).
  { unfold info, getCiInfo.
    destruct (js_truthy (env_get (env w) "CI_BUILD_TAG")); eauto. }
  split; [|split; [|split; [|split]]].
  - unfold gitInfo. rewrite Hci. reflexivity.
  - destruct Hr as [[|] Hr]; auto.
  - exact Hsha.
  - intros Htag Hname. unfold info, getCiInfo, env_get. rewrite Htag, Hname. cbn.
    split; [reflexivity|]. split; [reflexivity|].
    intros apiUrl project. reflexivity.
  - destruct Hr as [r Hr].
    assert (Hurl : sneakpeekUrl (read_prop st options "apiUrl")
                     (read_prop st options "project") info
                   = inr (js_join "/"
                            [ read_prop st options "apiUrl"; JStr "projects";
                              JStr (encodeURIComponent
                                      (js_to_string (read_prop st options "project")));
                              JStr (reftype_plural r);
                              JStr (encodeURIComponent (js_to_string (ref info))) ])).
    { unfold sneakpeekUrl. rewrite Hr. destruct r; reflexivity. }
    pose proof (upload_run w zipfile options st info [] Hrun) as Hup.
    cbv zeta in Hup. rewrite Hurl in Hup. rewrite Hup. clear Hup.
    unfold request_head, request_body. rewrite !Hsha. unfold env_get.
    set (auth := if js_truthy (read_prop st options "apiKey")
                 then [request_set "Authorization" (read_prop st options "apiKey")]
                 else []).
    assert (Hauth : Forall (λ ev, ev ≠ request_send
                                  ∧ ∀ name v, ev ≠ request_field name v) auth).
    { unfold auth. destruct (js_truthy (read_prop st options "apiKey"));
        [|apply List.Forall_nil].
      apply List.Forall_cons; [|apply List.Forall_nil].
      split; [discriminate|]. intros name v. discriminate. }
    exists r. eexists. exists (trace st ++ [console_log
                 (LString ("Uploading to "
                           +:+ js_to_string (read_prop st options "apiUrl")))]).
    destruct (env w !! "CI_BUILD_REF") as [v|] eqn:Hv; cbn [js_nullish].
    + destruct (js_nullish (read_prop st options "gitlabProject"));
        cbn [fst snd trace app];
        eexists; (split; [exact Hr|]); (split; [exact Hurl|]); (split; [reflexivity|]);
        (split; [rewrite <- ?app_assoc; cbn [app]; reflexivity|]);
        (split; [|discriminate]); intros v' [= <-];
        apply elem_of_app; right; left.
    + cbn [fst snd trace app]. exists auth.
      split; [exact Hr|]. split; [exact Hurl|]. split; [reflexivity|].
      split; [rewrite <- ?app_assoc; cbn [app]; reflexivity|].
      split; [discriminate|]. intros _. split; [reflexivity|exact Hauth].
Qed.

Lemma ci_reftype_always_resolved_witness :
  (gitInfo (world_with env_ci_tag [output_finish] (http_ok "{}")) state_demo).1
  = inr {| sha := JStr "abc123"; reftype := Some tag; ref := JStr "v1.2.0" |}
  ∧ ∃ pre post,
      trace (upload (world_with env_ci_tag [output_finish] (http_ok "{}"))
               "/tmp/tmp-4711" 2%positive state_demo).2
      = pre ++ request_post "https://api.example.com/projects/demo/tags/v1.2.0"
            :: request_type "form" :: post
      ∧ request_field "sha" (JStr "abc123") ∈ post.
Proof.
  destruct (ci_reftype_always_resolved
              (world_with env_ci_tag [output_finish] (http_ok "{}"))
              "/tmp/tmp-4711" 2%positive state_demo)
    as (Hrun & _ & _ & _ & r & url & pre & post & _ & Hurl & _ & Htrace & Hsha & _);
    [reflexivity|].
  split; [rewrite Hrun; reflexivity|].
  vm_compute in Hurl. injection Hurl as <-.
  exists pre, post. split; [exact Htrace|].
  apply Hsha. reflexivity.
Defined.

(** ** The outcome of an upload *)



(** ** The archive and the command *)

(** C6 at the input where the code fails it: the temporary file cannot be
    written and the output stream reports an error.  [zip] listens to the
    error of the archive and to the finish of the output file, but not to
    the error of the output file: the promise of [zip] is not rejected, it
    stays pending, and so does the promise of [uploadCommand]. *)
Lemma output_error_leaves_promise_pending :
  stream_events world_disk_full = [output_error "ENOSPC: no space left on device, write"]
  ∧ (zip world_disk_full (JStr "dist") (init_state ∅)).1 = inr Pending
  ∧ (uploadCommand world_disk_full argv_demo (init_state ∅)).1 = inr Pending
  ∧ ∀ e, (zip world_disk_full (JStr "dist") (init_state ∅)).1 ≠ inr (Rejected e).
Proof.
  split; [reflexivity|]. split; [reflexivity|]. split; [vm_compute; reflexivity|].
  intros e. discriminate.
Qed.

(** C7: when the path does not exist ([fs.statSync] throws) or is not a
    directory, [uploadCommand] throws: the error of statSync in the first
    case, the message that the path is not a directory in the second.  The
    throw is that of the synchronous part, and all the command has done by
    then is to ask for the status of the path: no temporary file is named
    or opened and nothing of the archive or the upload has started. *)
Theorem invalid_path_throws_first (w : World) (argv : Argv) (st : State) :
  statSync w (argv_path argv) ≠ stat_ok true →
  ∃ h' e,
    uploadCommand w argv st
    = (inl e, {| heap := h'; trace := trace st ++ [stat_call (argv_path argv)] |})
    ∧ (validatePath w (argv_path argv) st).1 = inl e
    ∧ match statSync w (argv_path argv) with
      | stat_throws msg => e = ExnStat msg
      | stat_ok _ =>
          e = ExnString ("Path " +:+ js_to_string (argv_path argv)
                         +:+ " is not a directory")
      end
    ∧ Forall (λ ev, is_archive ev = false ∧ is_request ev = false)
        [stat_call (argv_path argv)].
Proof.
  intros Hstat.
  destruct (uploadCommand_run w argv st) as (h' & T & _ & _ & _ & _ & Hrun).
  exists h'. rewrite Hrun, pipeline_run, validatePath_run. cbn [fst].
  destruct (statSync w (argv_path argv)) as [msg|[|]]; [|done|];
    eexists; (split; [reflexivity|]); (split; [reflexivity|]);
    (split; [reflexivity|]); repeat constructor.
Qed.

Lemma invalid_path_throws_first_witness :
  uploadCommand world_local argv_readme (init_state ∅)
  = (inl (ExnString "Path README.md is not a directory"),
     {| heap := heap (uploadCommand world_local argv_readme (init_state ∅)).2;
        trace := [stat_call (JStr "README.md")] |}).
Proof.
  destruct (invalid_path_throws_first world_local argv_readme (init_state ∅))
    as (h' & e & Hrun & _ & He & _); [discriminate|].
  rewrite Hrun. cbn in He. rewrite He. reflexivity.
Defined.

(** C10: [uploadCommand] leaves [DEFAULTS] as it was, whatever becomes of
    the command: the merged options are written to an object that did not
    exist before, which holds the flags over the defaults, and every
    object that existed before, [DEFAULTS] among them, has the properties
    it had. *)
Theorem uploadCommand_keeps_DEFAULTS (w : World) (argv : Argv) (st : State)
    (D : gmap string jsval) :
  heap st !! DEFAULTS = Some D →
  let st' := (uploadCommand w argv st).2 in
  let options := fresh (dom (heap st)) in
  heap st' !! DEFAULTS = Some D
  ∧ (∀ l, l ∈ dom (heap st) → heap st' !! l = heap st !! l)
  ∧ options ≠ DEFAULTS
  ∧ heap st !! options = None
  ∧ heap st' !! options = Some (flags_object argv ∪ D).
Proof.
  intros HD st' options.
  destruct (uploadCommand_run w argv st)
    as (h' & T & Hfresh & Hold & Hopt & HT & Hrun).
  assert (Hheap : heap st' = h').
  { unfold st'. rewrite Hrun. apply pipeline_heap. }
  assert (Hdom : DEFAULTS ∈ dom (heap st)) by (apply elem_of_dom; eauto).
  rewrite Hheap. split; [|split; [|split; [|split]]].
  - rewrite Hold by done. exact HD.
  - exact Hold.
  - intros Heq. apply Hfresh. fold options. rewrite Heq. exact Hdom.
  - apply not_elem_of_dom. exact Hfresh.
  - rewrite (HT D HD) in Hopt. exact Hopt.
Qed.

Lemma uploadCommand_keeps_DEFAULTS_witness :
  heap (uploadCommand world_local argv_demo (init_state ∅)).2 !! DEFAULTS
  = Some (DEFAULTS_object ∅)
  ∧ DEFAULTS_object ∅ !! "apiUrl" = Some (JStr "https://api.peek.digitpaint.nl").
Proof.
  split; [|reflexivity].
  assert (Hinit : heap (init_state ∅) !! DEFAULTS = Some (DEFAULTS_object ∅))
    by reflexivity.
  exact (proj1 (uploadCommand_keeps_DEFAULTS world_local argv_demo (init_state ∅)
                  (DEFAULTS_object ∅) Hinit)).
Defined.

(** ** Progress *)

(** C8, as stated, fails: the first event does not record how much it had
    loaded, so the second event ticks by all that is loaded so far.  After
    10 and then 30 of 100 bytes the bar is ticked by 30, not by the 20
    loaded since the previous event. *)
Lemma second_tick_counts_from_zero :
  let events := [ {| loaded := 10; total := 100 |}; {| loaded := 30; total := 100 |} ] in
  (run_progress {| bar := None; last := 0 |} events).2 = [bar_new 100; bar_tick 30]
  ∧ (run_progress {| bar := None; last := 0 |} events).2
    ≠ bar_new 100 :: (bar_tick <$> deltas 10 [ {| loaded := 30; total := 100 |} ]).
Proof. split; [reflexivity|discriminate]. Qed.

(** C8, amended: the first progress event creates the bar, sized to the
    total of that event, and ticks nothing; every later event ticks the
    bar by the bytes loaded since the event before it, where the event
    after the first counts from zero.  So from the second event on the
    position of the bar is the number of bytes loaded.  These calls are
    what [upload] does between sending the request and reporting its
    outcome. *)
Theorem progress_ticks (e : progress_event) (rest : list progress_event) :
  let v := (run_progress {| bar := None; last := 0 |} (e :: rest)).1 in
  (run_progress {| bar := None; last := 0 |} (e :: rest)).2
  = bar_new (total e) :: (bar_tick <$> deltas 0 rest)
  ∧ bar v = Some {| bar_total := total e; curr := last v |}
  ∧ last v = List.last (loaded <$> rest) 0%Z
  ∧ (run_progress {| bar := None; last := 0 |} []).2 = [].
Proof.
  cbn [run_progress on_progress bar last].
  rewrite run_progress_ticks. cbn [fst snd bar last]. unfold tick. cbn.
  rewrite Z.sub_0_r. done.
Qed.

Lemma progress_ticks_witness :
  (run_progress {| bar := None; last := 0 |} (progress_events world_local)).2
  = [bar_new 100; bar_tick 30; bar_tick 70].
Proof.
  exact (proj1 (progress_ticks {| loaded := 10; total := 100 |}
                  [ {| loaded := 30; total := 100 |};
                    {| loaded := 100; total := 100 |} ])).
Defined.

(** * Further properties *)

(** ** Strings *)

Lemma append_cons a s t : String a s +:+ t = String a (s +:+ t).
Proof. reflexivity. Qed.

Lemma append_nil_r s : s +:+ EmptyString = s.
Proof. induction s as [|a s IH]; [done|]. rewrite append_cons, IH. done. Qed.

Lemma append_assoc s t u : (s +:+ t) +:+ u = s +:+ t +:+ u.
Proof. induction s as [|a s IH]; [done|]. rewrite !append_cons, IH. done. Qed.

Lemma rev_app_append s acc :
  String.rev_app s acc = String.rev_app s EmptyString +:+ acc.
Proof.
  revert acc. induction s as [|a s IH]; intros acc; [done|].
  cbn [String.rev_app]. rewrite (IH (String a acc)), (IH (String a EmptyString)).
  rewrite append_assoc. reflexivity.
Qed.

Lemma rev_cons a s : String.rev (String a s) = String.rev s +:+ String a EmptyString.
Proof. unfold String.rev. cbn [String.rev_app]. apply rev_app_append. Qed.

Lemma rev_append s t : String.rev (s +:+ t) = String.rev t +:+ String.rev s.
Proof.
  induction s as [|a s IH].
  - cbn. rewrite append_nil_r. reflexivity.
  - rewrite append_cons, !rev_cons, IH, append_assoc. reflexivity.
Qed.

Lemma rev_involutive s : String.rev (String.rev s) = s.
Proof.
  induction s as [|a s IH]; [done|].
  rewrite rev_cons, rev_append, IH. reflexivity.
Qed.

Lemma length_append s t :
  String.length (s +:+ t) = (String.length s + String.length t)%nat.
Proof. induction s as [|a s IH]; [done|]. rewrite append_cons. cbn. rewrite IH. done. Qed.

Lemma string_forallb_append p s t :
  string_forallb p (s +:+ t) = string_forallb p s && string_forallb p t.
Proof.
  induction s as [|a s IH]; [done|].
  rewrite append_cons. cbn. rewrite IH, andb_assoc. reflexivity.
Qed.

Lemma string_forallb_rev p s : string_forallb p (String.rev s) = string_forallb p s.
Proof.
  induction s as [|a s IH]; [done|].
  rewrite rev_cons, string_forallb_append, IH. cbn.
  rewrite andb_true_r. apply andb_comm.
Qed.

Lemma string_forallb_impl (p q : ascii → bool) s :
  (∀ c, p c = true → q c = true) →
  string_forallb p s = true → string_forallb q s = true.
Proof.
  intros Hpq. induction s as [|a s IH]; [done|]. cbn.
  rewrite !andb_true_iff. intros [Ha Hs]. auto.
Qed.

(** ** The encoding of URL segments *)

Lemma percent_byte_safe c : string_forallb uri_safe (percent_byte c) = true.
Proof. destruct c as [[] [] [] [] [] [] [] []]; vm_compute; reflexivity. Qed.

Lemma percent_byte_decode c :
  byte_of_hex (hex_digit (nat_of_ascii c / 16)) (hex_digit (nat_of_ascii c mod 16)) = c.
Proof. destruct c as [[] [] [] [] [] [] [] []]; vm_compute; reflexivity. Qed.

Lemma percent_byte_inj c1 c2 : percent_byte c1 = percent_byte c2 → c1 = c2.
Proof.
  unfold percent_byte. intros H. injection H as Hhi Hlo.
  change (hex_digit (nat_of_ascii c1 / 16) = hex_digit (nat_of_ascii c2 / 16)) in Hhi.
  change (hex_digit (nat_of_ascii c1 mod 16) = hex_digit (nat_of_ascii c2 mod 16)) in Hlo.
  rewrite <- (percent_byte_decode c1), <- (percent_byte_decode c2), Hhi, Hlo.
  reflexivity.
Qed.

Lemma encodeURIComponent_cons c s :
  encodeURIComponent (String c s)
  = if uri_unreserved c
    then String c (encodeURIComponent s)
    else String "%" (String (hex_digit (nat_of_ascii c / 16))
                       (String (hex_digit (nat_of_ascii c mod 16))
                          (encodeURIComponent s))).
Proof. cbn [encodeURIComponent]. destruct (uri_unreserved c); reflexivity. Qed.

Lemma encodeURIComponent_safe s :
  string_forallb uri_safe (encodeURIComponent s) = true.
Proof.
  induction s as [|c s IH]; [done|].
  cbn [encodeURIComponent]. rewrite string_forallb_append, IH, andb_true_r.
  destruct (uri_unreserved c) eqn:Hc.
  - cbn. unfold uri_safe. rewrite Hc. reflexivity.
  - apply percent_byte_safe.
Qed.

Lemma encodeURIComponent_inj s1 s2 :
  encodeURIComponent s1 = encodeURIComponent s2 → s1 = s2.
Proof.
  revert s2. induction s1 as [|c1 s1 IH]; intros [|c2 s2].
  - done.
  - rewrite encodeURIComponent_cons. cbn. destruct (uri_unreserved c2); discriminate.
  - rewrite encodeURIComponent_cons. cbn. destruct (uri_unreserved c1); discriminate.
  - rewrite !encodeURIComponent_cons.
    destruct (uri_unreserved c1) eqn:H1, (uri_unreserved c2) eqn:H2; intros H.
    + injection H as -> H. f_equal. auto.
    + injection H as -> _. vm_compute in H1. discriminate.
    + injection H as <- _. vm_compute in H2. discriminate.
    + injection H as Hhi Hlo H. f_equal; [|auto].
      change (hex_digit (nat_of_ascii c1 / 16) = hex_digit (nat_of_ascii c2 / 16)) in Hhi.
      change (hex_digit (nat_of_ascii c1 mod 16) = hex_digit (nat_of_ascii c2 mod 16))
        in Hlo.
      apply percent_byte_inj. unfold percent_byte. cbv zeta. rewrite Hhi, Hlo.
      reflexivity.
Qed.

(** A string without a slash in front of a slash: the place of the first
    slash tells the two parts apart. *)
Lemma split_at_slash p1 p2 x1 x2 :
  string_forallb uri_safe p1 = true →
  string_forallb uri_safe p2 = true →
  p1 +:+ String "/" x1 = p2 +:+ String "/" x2 →
  p1 = p2 ∧ x1 = x2.
Proof.
  revert p2. induction p1 as [|a p1 IH]; intros [|b p2] H1 H2 H.
  - injection H as ->. done.
  - rewrite append_cons in H. injection H as <- _. vm_compute in H2. discriminate.
  - rewrite append_cons in H. injection H as -> _. vm_compute in H1. discriminate.
  - rewrite !append_cons in H. injection H as -> H.
    cbn in H1, H2. apply andb_true_iff in H1 as [_ H1], H2 as [_ H2].
    destruct (IH p2 H1 H2 H) as [-> ->]. done.
Qed.

Lemma encodeURIComponent_unreserved s :
  string_forallb uri_unreserved s = true → encodeURIComponent s = s.
Proof.
  induction s as [|c s IH]; [done|]. cbn [string_forallb].
  rewrite andb_true_iff. intros [Hc Hs].
  rewrite encodeURIComponent_cons, Hc, (IH Hs). reflexivity.
Qed.

(** What [sneakpeekUrl] returns when it returns. *)
Lemma sneakpeekUrl_shape base project git url :
  sneakpeekUrl base project git = inr url →
  ∃ r, reftype git = Some r
       ∧ url = join_elem base +:+ "/projects/"
               +:+ encodeURIComponent (js_to_string project) +:+ "/"
               +:+ reftype_plural r +:+ "/"
               +:+ encodeURIComponent (js_to_string (ref git)).
Proof.
  unfold sneakpeekUrl. destruct (reftype git) as [[|]|]; cbn; intros H;
    [injection H as <-; eexists; split; reflexivity ..|discriminate].
Qed.

(** X1: the two URL segments that come from the project and the ref hold
    only unreserved characters and percent escapes, whatever the project
    and the ref are; characters such as the slash, the question mark, the
    hash and the space are not among them, so they cannot add a path
    segment, a query or a fragment to the URL. *)
Theorem url_segments_are_encoded (base project s rf : jsval) (r : reftype_t) :
  let P := encodeURIComponent (js_to_string project) in
  let R := encodeURIComponent (js_to_string rf) in
  sneakpeekUrl base project {| sha := s; reftype := Some r; ref := rf |}
  = inr (join_elem base +:+ "/projects/" +:+ P +:+ "/"
         +:+ reftype_plural r +:+ "/" +:+ R)
  ∧ string_forallb uri_safe P = true
  ∧ string_forallb uri_safe R = true
  ∧ string_forallb (λ c, negb (uri_safe c)) "/?#&=+,:;@$ " = true.
Proof.
  intros P R. split; [|split; [|split]].
  - destruct r; reflexivity.
  - apply encodeURIComponent_safe.
  - apply encodeURIComponent_safe.
  - reflexivity.
Qed.

(** X2: for one API base, two revisions get the same URL only when the
    project, the reftype and the ref are the same, as they print: the
    encoding loses nothing, and no ref of one project can produce the URL
    of a ref of another. *)
Theorem sneakpeekUrl_injective (base p1 p2 : jsval) (g1 g2 : RevisionInfo)
    (url : string) :
  sneakpeekUrl base p1 g1 = inr url →
  sneakpeekUrl base p2 g2 = inr url →
  js_to_string p1 = js_to_string p2
  ∧ reftype g1 = reftype g2
  ∧ js_to_string (ref g1) = js_to_string (ref g2).
Proof.
  intros H1 H2.
  apply sneakpeekUrl_shape in H1 as (r1 & Hr1 & ->).
  apply sneakpeekUrl_shape in H2 as (r2 & Hr2 & H).
  apply (inj (String.append _)) in H.
  change ("/projects/" +:+ ?x) with ("/projects" +:+ String "/" x) in H.
  apply (inj (String.append _)) in H. injection H as H.
  apply split_at_slash in H as [Hp H]; try apply encodeURIComponent_safe.
  apply encodeURIComponent_inj in Hp.
  assert (Hr : r1 = r2 ∧ encodeURIComponent (js_to_string (ref g1))
                         = encodeURIComponent (js_to_string (ref g2))).
  { destruct r1, r2; try (split; [reflexivity|]);
      first [ injection H as H; exact H | discriminate H ]. }
  destruct Hr as [-> Hr]. apply encodeURIComponent_inj in Hr.
  rewrite Hr1, Hr2. done.
Qed.

Lemma sneakpeekUrl_injective_witness :
  js_to_string (JStr "undefined") = js_to_string JUndefined
  ∧ reftype {| sha := JNull; reftype := Some branch; ref := JStr "feature/x" |}
    = reftype {| sha := JStr "4f2a9c1"; reftype := Some branch; ref := JStr "feature/x" |}.
Proof.
  destruct (sneakpeekUrl_injective (JStr "https://api.example.com")
              (JStr "undefined") JUndefined
              {| sha := JNull; reftype := Some branch; ref := JStr "feature/x" |}
              {| sha := JStr "4f2a9c1"; reftype := Some branch; ref := JStr "feature/x" |}
              "https://api.example.com/projects/undefined/branches/feature%2Fx")
    as (Hp & Hr & _); [reflexivity | reflexivity |].
  split; [exact Hp | exact Hr].
Defined.

(** X3: a project and a ref made of unreserved characters only (letters,
    digits and [- _ . ! ~ * ' ( )]) are in the URL as they are. *)
Theorem url_of_unreserved_names (apiUrl project name : string) (r : reftype_t)
    (s : jsval) :
  string_forallb uri_unreserved project = true →
  string_forallb uri_unreserved name = true →
  sneakpeekUrl (JStr apiUrl) (JStr project)
    {| sha := s; reftype := Some r; ref := JStr name |}
  = inr (apiUrl +:+ "/projects/" +:+ project +:+ "/"
         +:+ reftype_plural r +:+ "/" +:+ name).
Proof.
  intros Hp Hn.
  pose proof (encodeURIComponent_unreserved project Hp) as Ep.
  pose proof (encodeURIComponent_unreserved name Hn) as En.
  unfold sneakpeekUrl. cbn [reftype ref js_to_string].
  rewrite Ep, En. destruct r; reflexivity.
Qed.

Lemma url_of_unreserved_names_witness :
  sneakpeekUrl (JStr "https://api.example.com") (JStr "my-site_2")
    {| sha := JNull; reftype := Some tag; ref := JStr "v1.2.0" |}
  = inr "https://api.example.com/projects/my-site_2/tags/v1.2.0".
Proof.
  apply (url_of_unreserved_names "https://api.example.com" "my-site_2" "v1.2.0" tag JNull);
    reflexivity.
Defined.

(** ** What [git] returns *)

(** A character that is neither white space nor part of the encoding of a
    white space character stops the trimming at either end. *)
Lemma strip_one_stops c x :
  plain_char c || bool_decide (c = dquote) = true →
  strip_one js_whitespace (String c x) = None
  ∧ strip_one (String.rev <$> js_whitespace) (String c x) = None.
Proof.
  destruct c as [[] [] [] [] [] [] [] []]; intros H; vm_compute in H;
    first [ discriminate H | split; vm_compute; reflexivity ].
Qed.

Lemma trim_start_fuel_S n ws s :
  trim_start_fuel (S n) ws s
  = match strip_one ws s with
    | Some s' => trim_start_fuel n ws s'
    | None => s
    end.
Proof. reflexivity. Qed.

Lemma trim_start_stops ws c x :
  strip_one ws (String c x) = None → trim_start ws (String c x) = String c x.
Proof.
  intros H. unfold trim_start. change (String.length (String c x)) with (S (String.length x)).
  rewrite trim_start_fuel_S, H. reflexivity.
Qed.

Lemma strip_newline rest :
  strip_one (String.rev <$> js_whitespace) (String "010" rest) = Some rest.
Proof. vm_compute. reflexivity. Qed.

(** A line that begins and ends with such a character is trimmed to the
    text before the line feed. *)
Lemma js_trim_line c x c' z :
  plain_char c || bool_decide (c = dquote) = true →
  plain_char c' || bool_decide (c' = dquote) = true →
  String c x = z +:+ String c' EmptyString →
  js_trim (String c x +:+ newline) = String c x.
Proof.
  intros Hc Hc' Hlast.
  assert (Hrev : String.rev (String c x) = String c' (String.rev z)).
  { rewrite Hlast, rev_append. reflexivity. }
  assert (H1 : trim_start js_whitespace (String c x +:+ newline)
               = String c x +:+ newline).
  { apply (trim_start_stops js_whitespace c (x +:+ newline)).
    exact (proj1 (strip_one_stops c (x +:+ newline) Hc)). }
  assert (H2 : trim_start (String.rev <$> js_whitespace)
                 (String.rev (String c x +:+ newline))
               = String.rev (String c x)).
  { rewrite rev_append, Hrev.
    change (String.rev newline +:+ String c' (String.rev z))
      with (String "010" (String c' (String.rev z))).
    unfold trim_start.
    change (String.length (String "010" (String c' (String.rev z))))
      with (S (S (String.length (String.rev z)))).
    rewrite trim_start_fuel_S, strip_newline, trim_start_fuel_S.
    rewrite (proj2 (strip_one_stops c' (String.rev z) Hc')). reflexivity. }
  unfold js_trim. cbv zeta. rewrite H1, H2. apply rev_involutive.
Qed.

(** A text that begins and ends with such a character is not trimmed. *)
Lemma js_trim_unchanged c x c' z :
  plain_char c || bool_decide (c = dquote) = true →
  plain_char c' || bool_decide (c' = dquote) = true →
  String c x = z +:+ String c' EmptyString →
  js_trim (String c x) = String c x.
Proof.
  intros Hc Hc' Hlast.
  assert (Hrev : String.rev (String c x) = String c' (String.rev z)).
  { rewrite Hlast, rev_append. reflexivity. }
  unfold js_trim. cbv zeta.
  rewrite (trim_start_stops js_whitespace c x (proj1 (strip_one_stops c x Hc))).
  rewrite Hrev.
  rewrite (trim_start_stops _ c' _ (proj2 (strip_one_stops c' (String.rev z) Hc'))).
  rewrite <- Hrev. apply rev_involutive.
Qed.

Lemma drop_trailing_quote_snoc t :
  drop_trailing_quote (t +:+ String dquote EmptyString) = t.
Proof.
  unfold drop_trailing_quote. rewrite rev_append.
  change (String.rev (String dquote EmptyString) +:+ String.rev t)
    with (String dquote (String.rev t)).
  cbn [drop_leading_quote]. rewrite decide_True by reflexivity.
  apply rev_involutive.
Qed.

(** X4: when a git command prints its answer between two double quotes,
    with or without a line feed after the closing quote, [git] returns what
    is between the quotes, whatever text that is: the quotes and the line
    feed are removed and nothing else.  This is the sha: [git show] with
    the quoted format that [getGitInfo] passes prints the hash between
    quotes and no line feed. *)
Theorem git_strips_format_quotes (w : World) (args : list string) (t ending : string) :
  ending = EmptyString ∨ ending = newline →
  execSync w (shell_words ("git" :: args))
  = Some (String dquote t +:+ String dquote ending) →
  git_returns w args = JStr t
  ∧ ∀ s, (git w args s).1 = inr (JStr t).
Proof.
  intros Hend Hout.
  assert (Htrim : js_trim (String dquote t +:+ String dquote ending)
                  = String dquote (t +:+ String dquote EmptyString)).
  { destruct Hend as [-> | ->].
    - change (String dquote t +:+ String dquote EmptyString)
        with (String dquote (t +:+ String dquote EmptyString)).
      apply (js_trim_unchanged dquote (t +:+ String dquote EmptyString) dquote
               (String dquote t)); reflexivity.
    - change (String dquote t +:+ String dquote newline)
        with (String dquote (t +:+ String dquote newline)).
      replace (String dquote (t +:+ String dquote newline))
        with (String dquote (t +:+ String dquote EmptyString) +:+ newline)
        by (rewrite append_cons, append_assoc; reflexivity).
      apply (js_trim_line dquote (t +:+ String dquote EmptyString) dquote
               (String dquote t)); reflexivity. }
  assert (Hret : git_returns w args = JStr t).
  { unfold git_returns. cbv zeta. rewrite Hout, Htrim.
    cbn [drop_leading_quote]. rewrite decide_True by reflexivity.
    rewrite drop_trailing_quote_snoc. reflexivity. }
  split; [exact Hret|]. intros s. rewrite git_run, Hret. reflexivity.
Qed.

Lemma git_strips_format_quotes_witness :
  execSync world_local ["git"; "show"; show_format; "-s"; "HEAD"]
  = Some (String dquote ("4f2a9c1" +:+ String dquote EmptyString))
  ∧ git_returns world_local ["show"; show_format; "-s"; "HEAD"] = JStr "4f2a9c1".
Proof.
  split; [reflexivity|].
  apply (git_strips_format_quotes world_local ["show"; show_format; "-s"; "HEAD"]
           "4f2a9c1" EmptyString); [left|]; reflexivity.
Defined.

(** X5: when a git command prints a name and ends the line, and the name
    begins and ends with a printable ASCII character that is neither a
    space nor a double quote, [git] returns the name as it is, spaces and
    quotes inside it included. *)
Theorem git_returns_printed_name (w : World) (args : list string)
    (c c' : ascii) (x z : string) :
  plain_char c = true →
  plain_char c' = true →
  String c x = z +:+ String c' EmptyString →
  execSync w (shell_words ("git" :: args)) = Some (String c x +:+ newline) →
  git_returns w args = JStr (String c x).
Proof.
  intros Hc Hc' Hlast Hout.
  assert (Hq : ∀ a, plain_char a = true → a ≠ dquote).
  { intros a Ha ->. vm_compute in Ha. discriminate. }
  unfold git_returns. cbv zeta. rewrite Hout.
  rewrite (js_trim_line c x c' z) by (try rewrite Hc; try rewrite Hc'; done).
  cbn [drop_leading_quote]. rewrite decide_False by (apply Hq, Hc).
  unfold drop_trailing_quote. rewrite Hlast at 1. rewrite rev_append.
  change (String.rev (String c' EmptyString) +:+ String.rev z)
    with (String c' (String.rev z)).
  cbn [drop_leading_quote]. rewrite decide_False by (apply Hq, Hc').
  change (String c' (String.rev z))
    with (String.rev (String c' EmptyString) +:+ String.rev z).
  rewrite <- rev_append, <- Hlast, rev_involutive. reflexivity.
Qed.

Lemma git_returns_printed_name_witness :
  git_returns world_local ["rev-parse"; "--abbrev-ref"; "HEAD"] = JStr "main".
Proof.
  apply (git_returns_printed_name world_local ["rev-parse"; "--abbrev-ref"; "HEAD"]
           "m" "n" "ain" "mai"); reflexivity.
Defined.

(** ** Trimming is complete *)

Lemma strip_prefix_Some w s s' : strip_prefix w s = Some s' ↔ s = w +:+ s'.
Proof.
  revert s. induction w as [|a w IH]; intros s; cbn [strip_prefix].
  - split; [intros [= ->]; reflexivity | intros ->; reflexivity].
  - destruct s as [|b s]; [split; [discriminate|intros H; rewrite append_cons in H; discriminate]|].
    rewrite append_cons. destruct (decide (a = b)) as [->|Hne].
    + rewrite IH. split; [intros ->; reflexivity | intros [= ->]; reflexivity].
    + split; [discriminate | intros [= -> _]; done].
Qed.

Lemma strip_one_Some ws s s' :
  strip_one ws s = Some s' → ∃ w, w ∈ ws ∧ s = w +:+ s'.
Proof.
  induction ws as [|w ws IH]; [discriminate|]. cbn [strip_one].
  destruct (strip_prefix w s) as [r|] eqn:Hw.
  - intros [= ->]. exists w. split; [left|]. apply strip_prefix_Some. exact Hw.
  - intros H. destruct (IH H) as (w' & Hin & Heq). exists w'. split; [right|]; done.
Qed.

Lemma strip_one_None ws s :
  strip_one ws s = None ↔ ∀ w, w ∈ ws → strip_prefix w s = None.
Proof.
  induction ws as [|w ws IH]; cbn [strip_one].
  - split; [intros _ w Hw; inversion Hw | done].
  - destruct (strip_prefix w s) as [r|] eqn:Hw.
    + split; [discriminate|]. intros H. rewrite (H w) in Hw by left. discriminate.
    + rewrite IH. split.
      * intros H w' Hw'. apply elem_of_cons in Hw' as [->|Hw']; auto.
      * intros H w' Hw'. apply H. right. exact Hw'.
Qed.

(** A pattern that is at the start of [r] is at the start of every string
    that [r] starts. *)
Lemma strip_one_prefix ws r y :
  strip_one ws (r +:+ y) = None → strip_one ws r = None.
Proof.
  rewrite !strip_one_None. intros H w Hw.
  destruct (strip_prefix w r) as [x|] eqn:Hx; [|reflexivity].
  apply strip_prefix_Some in Hx. specialize (H w Hw).
  assert (Hs : strip_prefix w (r +:+ y) = Some (x +:+ y)).
  { apply strip_prefix_Some. rewrite Hx, append_assoc. reflexivity. }
  congruence.
Qed.

(** With as much fuel as the string is long, nothing is left to strip:
    every pattern is at least one character long. *)
Lemma trim_start_fuel_complete ws n s :
  (∀ w, w ∈ ws → w ≠ EmptyString) →
  (String.length s ≤ n)%nat →
  strip_one ws (trim_start_fuel n ws s) = None.
Proof.
  intros Hws. revert s. induction n as [|n IH]; intros s Hn.
  - destruct s; [|cbn in Hn; lia]. cbn [trim_start_fuel].
    apply strip_one_None. intros w Hw. specialize (Hws w Hw).
    destruct w; [done|reflexivity].
  - rewrite trim_start_fuel_S. destruct (strip_one ws s) as [s'|] eqn:Hs; [|exact Hs].
    apply IH. apply strip_one_Some in Hs as (w & Hw & ->).
    specialize (Hws w Hw). rewrite length_append in Hn.
    destruct w; [done|]. cbn in Hn. lia.
Qed.

(** What is left is the end of the string. *)
Lemma trim_start_fuel_suffix ws n s :
  ∃ u, s = u +:+ trim_start_fuel n ws s.
Proof.
  revert s. induction n as [|n IH]; intros s; [exists EmptyString; reflexivity|].
  rewrite trim_start_fuel_S. destruct (strip_one ws s) as [s'|] eqn:Hs.
  - apply strip_one_Some in Hs as (w & _ & ->). destruct (IH s') as [u Hu].
    exists (w +:+ u). rewrite append_assoc, <- Hu. reflexivity.
  - exists EmptyString. reflexivity.
Qed.

Lemma trim_start_fuel_fixed ws n s :
  strip_one ws s = None → trim_start_fuel n ws s = s.
Proof. intros H. destruct n; [reflexivity|]. rewrite trim_start_fuel_S, H. reflexivity. Qed.

Lemma js_whitespace_nonempty w :
  w ∈ js_whitespace ∨ w ∈ String.rev <$> js_whitespace → w ≠ EmptyString.
Proof.
  intros H ->.
  assert (H1 : EmptyString ∉ js_whitespace).
  { apply (bool_decide_unpack (EmptyString ∉ js_whitespace)). vm_compute. exact I. }
  assert (H2 : EmptyString ∉ String.rev <$> js_whitespace).
  { apply (bool_decide_unpack (EmptyString ∉ String.rev <$> js_whitespace)).
    vm_compute. exact I. }
  destruct H; tauto.
Qed.

(** X6: the text [git] trims neither begins nor ends with a white space
    character when the trimming is done, however many there were (the
    fuel of [js_trim] is enough for every string), and trimming it again
    changes nothing. *)
Theorem js_trim_complete (s : string) :
  strip_one js_whitespace (js_trim s) = None
  ∧ strip_one (String.rev <$> js_whitespace) (String.rev (js_trim s)) = None
  ∧ js_trim (js_trim s) = js_trim s.
Proof.
  set (s1 := trim_start js_whitespace s).
  set (t := trim_start (String.rev <$> js_whitespace) (String.rev s1)).
  assert (Htrim : js_trim s = String.rev t) by reflexivity.
  assert (H1 : strip_one js_whitespace s1 = None).
  { apply trim_start_fuel_complete; [|done].
    intros w Hw. apply js_whitespace_nonempty. left. exact Hw. }
  assert (Ht : strip_one (String.rev <$> js_whitespace) t = None).
  { apply trim_start_fuel_complete; [|done].
    intros w Hw. apply js_whitespace_nonempty. right. exact Hw. }
  assert (Hstart : strip_one js_whitespace (String.rev t) = None).
  { destruct (trim_start_fuel_suffix (String.rev <$> js_whitespace)
                (String.length (String.rev s1)) (String.rev s1)) as [u Hu].
    fold (trim_start (String.rev <$> js_whitespace) (String.rev s1)) in Hu. fold t in Hu.
    apply (strip_one_prefix _ _ (String.rev u)).
    rewrite <- rev_append, <- Hu, rev_involutive. exact H1. }
  rewrite Htrim, rev_involutive. split; [exact Hstart|]. split; [exact Ht|].
  unfold js_trim. cbv zeta. unfold trim_start at 2.
  rewrite (trim_start_fuel_fixed _ _ _ Hstart), rev_involutive.
  unfold trim_start. rewrite (trim_start_fuel_fixed _ _ _ Ht). reflexivity.
Qed.

(** ** The revision and the upload *)

Lemma gitInfo_result w st info :
  (gitInfo w st).1 = inr info →
  ∃ evs, (∀ s, gitInfo w s = (inr info, {| heap := heap s; trace := trace s ++ evs |}))
         ∧ Forall (λ ev, ∃ a, ev = exec_call a) evs.
Proof.
  intros Hinfo. destruct (gitInfo_run w) as (info' & evs & Hrun & Hexec).
  rewrite Hrun in Hinfo. cbn in Hinfo. injection Hinfo as ->. eauto.
Qed.

Lemma run_progress_bar_events v es :
  Forall (λ ev, ∃ n, ev = bar_new n ∨ ev = bar_tick n) (run_progress v es).2.
Proof.
  revert v. induction es as [|e es IH]; intros v; [constructor|].
  cbn [run_progress]. destruct (on_progress v e) as [v1 ev] eqn:Hon.
  specialize (IH v1). destruct (run_progress v1 es) as [v2 out]. cbn [snd] in *.
  constructor; [|exact IH].
  unfold on_progress in Hon. destruct (bar v); injection Hon as _ <-; eauto.
Qed.

(** X7: whichever way the revision is resolved, a RevisionInfo of reftype
    tag has a non-empty string as its ref.  In local mode the same holds
    for reftype branch, the reftype is null exactly when the ref is null
    or the empty string, and sha and ref are never undefined; so in local
    mode [sneakpeekUrl] fails exactly when no name was found, and a URL it
    builds ends with the encoding of a name that git printed. *)
Theorem gitInfo_ref_invariant (w : World) (st : State) (info : RevisionInfo) :
  (gitInfo w st).1 = inr info →
  (reftype info = Some tag → js_truthy (ref info) = true)
  ∧ (js_truthy (env_get (env w) "CI") = false →
       (reftype info = None ↔ js_truthy (ref info) = false)
       ∧ (reftype info = None ↔ ref info = JNull ∨ ref info = JStr EmptyString)
       ∧ sha info ≠ JUndefined
       ∧ ref info ≠ JUndefined
       ∧ ∀ base project,
           (∃ url, sneakpeekUrl base project info = inr url)
           ↔ js_truthy (ref info) = true).
Proof.
  unfold gitInfo. destruct (js_truthy (env_get (env w) "CI")) eqn:Hci.
  - run_m. intros [= <-]. split; [|discriminate].
    unfold getCiInfo.
    destruct (js_truthy (env_get (env w) "CI_BUILD_TAG")) eqn:Ht; cbn; [auto|discriminate].
  - unfold getGitInfo, git. run_m. cbn [ref sha reftype].
    set (t := git_returns w ["describe"; "--tags"; "--exact-match"; "HEAD"]).
    set (b := git_returns w ["rev-parse"; "--abbrev-ref"; "HEAD"]).
    set (s := git_returns w ["show"; show_format; "-s"; "HEAD"]).
    assert (Hdef : ∀ a, git_returns w a ≠ JUndefined).
    { intros a. unfold git_returns. destruct (execSync w _); discriminate. }
    assert (Hfalse : ∀ a, js_truthy (git_returns w a) = false
                          ↔ git_returns w a = JNull ∨ git_returns w a = JStr EmptyString).
    { intros a. rewrite js_truthy_false. pose proof (Hdef a). tauto. }
    destruct (js_truthy t) eqn:Ht; cbn [negb ref sha fst snd]; rewrite ?Ht; cbn [negb].
    + intros [= <-]. cbn [reftype ref sha]. split; [auto|]. intros _.
      unfold sneakpeekUrl. cbn [reftype ref sha].
      repeat split; try discriminate; try apply Hdef; try (intros; exact Ht);
        try (intros H; rewrite Ht in H; discriminate);
        try (intros H; apply (proj2 (Hfalse _)) in H; fold t in H; congruence).
      intros _. eexists. reflexivity.
    + destruct (js_truthy b) eqn:Hb; cbn [negb]; intros [= <-]; cbn [reftype ref sha];
        (split; [discriminate|]); intros _; unfold sneakpeekUrl; cbn [reftype ref sha].
      * repeat split; try discriminate; try apply Hdef; try (intros; exact Hb);
          try (intros H; rewrite Hb in H; discriminate);
          try (intros H; apply (proj2 (Hfalse _)) in H; fold b in H; congruence).
        intros _. eexists. reflexivity.
      * repeat split; try discriminate; try apply Hdef; try done;
          try (intros _; apply (proj1 (Hfalse _)); exact Hb).
        -- intros [url Hurl]. cbn in Hurl. discriminate.
        -- intros H. congruence.
Qed.

Lemma gitInfo_ref_invariant_witness :
  js_truthy (ref {| sha := JStr "4f2a9c1"; reftype := Some branch; ref := JStr "main" |})
  = true.
Proof.
  destruct (gitInfo_ref_invariant world_local state_demo
              {| sha := JStr "4f2a9c1"; reftype := Some branch; ref := JStr "main" |})
    as (_ & Hlocal); [reflexivity|].
  destruct Hlocal as (_ & _ & _ & _ & Hurl); [reflexivity|].
  apply (Hurl (JStr "https://api.example.com") (JStr "demo")).
  eexists. reflexivity.
Defined.

(** X17: in local mode [gitInfo] asks git for the sha and then for the
    exact tag of HEAD.  When [git] returns a non-empty string for the tag,
    the revision is that tag and the branch is not asked for.  Otherwise
    the branch name is asked for: when [git] returns a non-empty string
    for it the revision is that branch, and when it returns null or the
    empty string the reftype is null.  The sha is what [git] returned for
    the first command, null when that command failed. *)
Theorem local_revision_queries (w : World) (st : State) :
  js_truthy (env_get (env w) "CI") = false →
  let s := git_returns w ["show"; show_format; "-s"; "HEAD"] in
  let t := git_returns w ["describe"; "--tags"; "--exact-match"; "HEAD"] in
  let b := git_returns w ["rev-parse"; "--abbrev-ref"; "HEAD"] in
  let asked_tag :=
    [ exec_call ["git"; "show"; show_format; "-s"; "HEAD"];
      exec_call ["git"; "describe"; "--tags"; "--exact-match"; "HEAD"] ] in
  let asked_branch :=
    asked_tag ++ [exec_call ["git"; "rev-parse"; "--abbrev-ref"; "HEAD"]] in
  gitInfo w st
  = if js_truthy t
    then (inr {| sha := s; reftype := Some tag; ref := t |},
          {| heap := heap st; trace := trace st ++ asked_tag |})
    else if js_truthy b
    then (inr {| sha := s; reftype := Some branch; ref := b |},
          {| heap := heap st; trace := trace st ++ asked_branch |})
    else (inr {| sha := s; reftype := None; ref := b |},
          {| heap := heap st; trace := trace st ++ asked_branch |}).
Proof.
  intros Hci s t b asked_tag asked_branch.
  unfold gitInfo. rewrite Hci.
  unfold getGitInfo, git. run_m. cbn [ref sha reftype]. fold s t b.
  destruct (js_truthy t) eqn:Ht; cbn [negb ref sha heap trace]; rewrite ?Ht; cbn [negb].
  - rewrite <- app_assoc. reflexivity.
  - destruct (js_truthy b); cbn [negb]; rewrite <- !app_assoc; reflexivity.
Qed.

Lemma local_revision_queries_witness :
  (gitInfo world_local state_demo).1
  = inr {| sha := JStr "4f2a9c1"; reftype := Some branch; ref := JStr "main" |}.
Proof.
  rewrite (local_revision_queries world_local state_demo) by reflexivity.
  reflexivity.
Defined.

(** What [upload] adds to the trace once the URL is built: the
    announcement, the git commands, the head of the request, and after
    that nothing that sets a header. *)
Lemma upload_trace_shape w zipfile options st info evs url :
  (∀ s, gitInfo w s = (inr info, {| heap := heap s; trace := trace s ++ evs |})) →
  sneakpeekUrl (read_prop st options "apiUrl") (read_prop st options "project") info
  = inr url →
  ∃ tail,
    trace (upload w zipfile options st).2
    = trace st
      ++ console_log
           (LString ("Uploading to " +:+ js_to_string (read_prop st options "apiUrl")))
         :: evs ++ request_head st options url ++ tail
    ∧ Forall (λ ev, ∀ header v, ev ≠ request_set header v) tail.
Proof.
  intros Hgit Hurl.
  rewrite (upload_run w zipfile options st info evs Hgit). cbv zeta. rewrite Hurl.
  destruct (js_nullish (sha info)); [|destruct (js_nullish _)]; cbn [snd trace].
  - exists []. rewrite app_nil_r. split; [reflexivity|constructor].
  - exists [request_field "sha" (sha info)].
    cbn [app]. rewrite <- ?app_assoc. split; [reflexivity|].
    repeat constructor; discriminate.
  - exists (request_body st options zipfile info
            ++ (run_progress {| bar := None; last := 0 |} (progress_events w)).2
            ++ request_report w).
    cbn [app]. rewrite <- ?app_assoc. split; [reflexivity|].
    apply Forall_app. split; [unfold request_body; repeat constructor; discriminate|].
    apply Forall_app. split.
    + eapply Forall_impl; [apply run_progress_bar_events|].
      intros ev [n [-> | ->]]; discriminate.
    + unfold request_report. destruct (response w) as [body|e|];
        [repeat constructor; discriminate| |constructor].
      unfold failure_report. destruct (bool_decide _); repeat constructor; discriminate.
Qed.

(** X8: when the request is made and succeeds, the last thing [upload]
    does is print the body of the response with [console.log]; the promise
    it returns is fulfilled and nothing is printed with [console.error].
    The request is made when the revision has a reftype and the values of
    the two fields, the sha and the gitlabProject of the options, are not
    null or undefined. *)
Theorem upload_success_prints_body (w : World) (zipfile : string)
    (options : positive) (st : State) (body : string) (info : RevisionInfo) :
  response w = http_ok body →
  (gitInfo w st).1 = inr info →
  reftype info ≠ None →
  js_nullish (sha info) = false →
  js_nullish (read_prop st options "gitlabProject") = false →
  ∃ pre,
    upload w zipfile options st
    = (inr (Fulfilled ()),
       {| heap := heap st; trace := trace st ++ pre ++ [console_log (LBody body)] |})
    ∧ request_send ∈ pre
    ∧ Forall (λ ev, ∀ msg, ev ≠ console_error msg) pre.
Proof.
  intros Hresp Hinfo Hsome Hsha Hgp.
  destruct (gitInfo_result w st info Hinfo) as (evs & Hrun & Hexec).
  pose proof (upload_run w zipfile options st info evs Hrun) as Hup. cbv zeta in Hup.
  destruct (sneakpeekUrl _ _ info) as [err|url] eqn:Hurl.
  { exfalso. unfold sneakpeekUrl in Hurl.
    destruct (reftype info) as [[|]|]; [discriminate Hurl..|done]. }
  rewrite Hsha, Hgp in Hup. rewrite Hup. clear Hup.
  unfold request_result, request_report. rewrite Hresp.
  eexists (_ :: evs ++ request_head st options url
             ++ request_body st options zipfile info
             ++ (run_progress _ (progress_events w)).2).
  split; [|split].
  - cbn [app]. rewrite <- !app_assoc. reflexivity.
  - right. apply elem_of_app. right. apply elem_of_app. right. apply elem_of_app. left.
    unfold request_body. right. right. right. left.
  - constructor; [discriminate|]. apply Forall_app. split.
    { eapply Forall_impl; [exact Hexec|]. intros ev [a ->]. discriminate. }
    apply Forall_app. split.
    { unfold request_head. destruct (js_truthy _); repeat constructor; discriminate. }
    apply Forall_app. split.
    { unfold request_body. repeat constructor; discriminate. }
    eapply Forall_impl; [apply run_progress_bar_events|].
    intros ev [n [-> | ->]]; discriminate.
Qed.

Lemma upload_success_prints_body_witness :
  ∃ pre,
    trace (upload world_local "/tmp/tmp-4711" 2%positive state_demo).2
    = pre ++ [console_log (LBody "{}")].
Proof.
  destruct (upload_success_prints_body world_local "/tmp/tmp-4711" 2%positive
              state_demo "{}"
              {| sha := JStr "4f2a9c1"; reftype := Some branch; ref := JStr "main" |})
    as (pre & Hup & _);
    [reflexivity | reflexivity | discriminate | reflexivity | reflexivity |].
  exists pre. rewrite Hup. reflexivity.
Defined.

(** X9: [upload] ends in one of three ways.  When the reftype of the
    resolved revision is null it throws the error of [sneakpeekUrl].  When
    the revision has a reftype but the sha, or the gitlabProject of the
    options, is null or undefined, it throws the error with which
    superagent refuses the field.  Otherwise it returns the promise of the
    request with its two handlers, which is fulfilled when the request has
    ended, with a response or with an error, and pending as long as it has
    not.  It throws nothing else, the promise it returns is never
    rejected, and the objects of the heap are as they were. *)
Theorem upload_outcomes (w : World) (zipfile : string) (options : positive)
    (st : State) :
  (∃ info,
     (gitInfo w st).1 = inr info
     ∧ (reftype info = None →
        (upload w zipfile options st).1
        = inl (ExnString "Current project is neither on a tag nor a branch"))
     ∧ (reftype info ≠ None →
        js_nullish (sha info)
        || js_nullish (read_prop st options "gitlabProject") = true →
        (upload w zipfile options st).1
        = inl (ExnError ".field(name, val) val can not be empty"))
     ∧ (reftype info ≠ None →
        js_nullish (sha info)
        || js_nullish (read_prop st options "gitlabProject") = false →
        (upload w zipfile options st).1
        = inr (match response w with
               | http_ok _ | http_fail _ => Fulfilled ()
               | http_pending => Pending
               end)))
  ∧ (∀ e, (upload w zipfile options st).1 ≠ inr (Rejected e))
  ∧ heap (upload w zipfile options st).2 = heap st.
Proof.
  destruct (gitInfo_run w) as (info & evs & Hrun & _).
  pose proof (upload_run w zipfile options st info evs Hrun) as Hup. cbv zeta in Hup.
  split; [|split; [|apply upload_heap]].
  - exists info. split; [rewrite Hrun; reflexivity|].
    rewrite Hup. unfold sneakpeekUrl, request_result.
    destruct (reftype info) as [[|]|]; cbn [reftype_key js_get reftypeToUrlMap];
      repeat match goal with |- context [decide ?P] => destruct (decide P); try done end;
      cbn [js_truthy negb];
      destruct (js_nullish (sha info)), (js_nullish (read_prop st options "gitlabProject"));
      cbn [orb fst]; repeat split; intros; try done;
      destruct (response w); reflexivity.
  - intros e. rewrite Hup. unfold request_result.
    destruct (sneakpeekUrl _ _ info); [discriminate|].
    destruct (js_nullish (sha info)); [discriminate|].
    destruct (js_nullish _); [discriminate|].
    destruct (response w); discriminate.
Qed.

(** X10: when [upload] gets as far as the request, it sets a header on it
    exactly when the API key of the options is a non-empty string, and
    then the header is Authorization and its value is the key as it is,
    with no scheme in front; a key that is null, undefined or empty sets
    no header at all. *)
Theorem authorization_header_iff_key (w : World) (zipfile : string)
    (options : positive) (st : State) (info : RevisionInfo) :
  (gitInfo w st).1 = inr info →
  reftype info ≠ None →
  ∃ new,
    trace (upload w zipfile options st).2 = trace st ++ new
    ∧ ∀ header v,
        request_set header v ∈ new
        ↔ header = "Authorization"
          ∧ v = read_prop st options "apiKey"
          ∧ js_truthy (read_prop st options "apiKey") = true.
Proof.
  intros Hinfo Hsome.
  destruct (gitInfo_result w st info Hinfo) as (evs & Hrun & Hexec).
  destruct (sneakpeekUrl (read_prop st options "apiUrl")
              (read_prop st options "project") info) as [err|url] eqn:Hurl.
  { exfalso. unfold sneakpeekUrl in Hurl.
    destruct (reftype info) as [[|]|]; [discriminate Hurl..|done]. }
  destruct (upload_trace_shape w zipfile options st info evs url Hrun Hurl)
    as (tail & Htrace & Htail).
  rewrite Htrace. eexists. split; [reflexivity|].
  set (key := read_prop st options "apiKey").
  intros header v. split.
  - intros Hin. apply elem_of_cons in Hin as [Hin|Hin]; [discriminate|].
    apply elem_of_app in Hin as [Hin|Hin].
    { rewrite Forall_forall in Hexec. destruct (Hexec _ Hin) as [a Ha]. discriminate. }
    apply elem_of_app in Hin as [Hin|Hin].
    + unfold request_head in Hin. fold key in Hin.
      destruct (js_truthy key) eqn:Hkey; cbn [app] in Hin.
      * apply elem_of_cons in Hin as [Hin|Hin]; [discriminate|].
        apply elem_of_cons in Hin as [Hin|Hin]; [discriminate|].
        apply elem_of_cons in Hin as [Hin|Hin]; [|inversion Hin].
        injection Hin as -> ->. done.
      * not_in_list Hin.
    + rewrite Forall_forall in Htail. destruct (Htail _ Hin header v eq_refl).
  - intros (-> & -> & Hkey). right. apply elem_of_app. right. apply elem_of_app. left.
    unfold request_head. fold key. rewrite Hkey. cbn [app]. right. right. left.
Qed.

Lemma authorization_header_iff_key_witness :
  ∃ new,
    trace (upload world_local "/tmp/tmp-4711" 2%positive state_demo).2
    = trace state_demo ++ new
    ∧ request_set "Authorization" (JStr "s3cret") ∈ new.
Proof.
  destruct (authorization_header_iff_key world_local "/tmp/tmp-4711" 2%positive
              state_demo
              {| sha := JStr "4f2a9c1"; reftype := Some branch; ref := JStr "main" |})
    as (new & Htrace & Hset); [reflexivity | discriminate |].
  exists new. split; [exact Htrace|].
  apply Hset. repeat split.
Defined.

(** ** The whole command *)

Lemma settle_fulfilled tmpFile evs zipfile :
  settle tmpFile Pending evs = Fulfilled zipfile → zipfile = tmpFile.
Proof.
  rewrite settle_first. destruct evs as [|[msg| |msg] evs]; congruence.
Qed.

(** What the merged options hold under the keys the command reads: the
    flags, whatever the defaults are. *)
Lemma merged_options_read argv h' T options tr :
  h' !! options = Some (flags_object argv ∪ T) →
  let s := {| heap := h'; trace := tr |} in
  read_prop s options "apiUrl" = argv_apiUrl argv
  ∧ read_prop s options "project" = argv_project argv
  ∧ read_prop s options "apiKey" = argv_apiKey argv
  ∧ read_prop s options "gitlabProject" = argv_gitlabProject argv.
Proof.
  intros Hopt s. unfold read_prop, s. cbn [heap]. rewrite Hopt. cbn.
  rewrite (lookup_union_Some_l _ _ _ (argv_apiUrl argv)) by reflexivity.
  rewrite (lookup_union_Some_l _ _ _ (argv_project argv)) by reflexivity.
  rewrite (lookup_union_Some_l _ _ _ (argv_apiKey argv)) by reflexivity.
  rewrite (lookup_union_Some_l _ _ _ (argv_gitlabProject argv)) by reflexivity.
  done.
Qed.

(** [uploadCommand] from beginning to end, for a revision that resolves to
    [info] with the git commands [gevs]. *)
Lemma uploadCommand_full w argv info gevs :
  (∀ s, gitInfo w s = (inr info, {| heap := heap s; trace := trace s ++ gevs |})) →
  ∀ st, ∃ h',
    (∀ l, l ∈ dom (heap st) → h' !! l = heap st !! l)
    ∧ uploadCommand w argv st
      = let path := argv_path argv in
        let zipped := stat_call path :: zip_calls w path in
        let announced :=
          zipped ++ console_log (LString ("Uploading to "
                                          +:+ js_to_string (argv_apiUrl argv)))
                    :: gevs in
        match statSync w path with
        | stat_throws msg =>
            (inl (ExnStat msg), {| heap := h'; trace := trace st ++ [stat_call path] |})
        | stat_ok false =>
            (inl (ExnString ("Path " +:+ js_to_string path +:+ " is not a directory")),
             {| heap := h'; trace := trace st ++ [stat_call path] |})
        | stat_ok true =>
            match settle (tmpNameSync w) Pending (stream_events w) with
            | Pending => (inr Pending, {| heap := h'; trace := trace st ++ zipped |})
            | Rejected e =>
                (inr (Rejected e), {| heap := h'; trace := trace st ++ zipped |})
            | Fulfilled _ =>
                match sneakpeekUrl (argv_apiUrl argv) (argv_project argv) info with
                | inl e =>
                    (inr (Rejected e),
                     {| heap := h'; trace := trace st ++ announced |})
                | inr url =>
                    let head :=
                      announced
                      ++ [request_post url; request_type "form"]
                      ++ (if js_truthy (argv_apiKey argv)
                          then [request_set "Authorization" (argv_apiKey argv)]
                          else []) in
                    if js_nullish (sha info)
                    then (inr (Rejected (ExnError field_val_empty)),
                          {| heap := h'; trace := trace st ++ head |})
                    else if js_nullish (argv_gitlabProject argv)
                    then (inr (Rejected (ExnError field_val_empty)),
                          {| heap := h';
                             trace := trace st ++ head
                                      ++ [request_field "sha" (sha info)] |})
                    else
                      (inr (request_result w),
                       {| heap := h';
                          trace :=
                            trace st ++ head
                            ++ [request_field "sha" (sha info);
                                request_field "gitlab_project" (argv_gitlabProject argv);
                                request_attach "file" (tmpNameSync w);
                                request_send]
                            ++ (run_progress {| bar := None; last := 0 |}
                                  (progress_events w)).2
                            ++ request_report w |})
                end
            end
        end.
Proof.
  intros Hgit st.
  destruct (uploadCommand_run w argv st) as (h' & T & _ & Hold & Hopt & _ & Hrun).
  exists h'. split; [exact Hold|]. rewrite Hrun, pipeline_run. cbv zeta.
  cbn [heap trace].
  destruct (statSync w (argv_path argv)) as [msg|[|]]; try reflexivity.
  destruct (settle (tmpNameSync w) Pending (stream_events w))
    as [|zipfile|e] eqn:Hzip; try reflexivity.
  apply settle_fulfilled in Hzip as ->.
  rewrite (upload_run _ _ _ _ _ _ Hgit). cbv zeta. unfold request_head, request_body.
  destruct (merged_options_read argv h' T (fresh (dom (heap st)))
              (trace st ++ stat_call (argv_path argv) :: zip_calls w (argv_path argv))
              Hopt) as (-> & -> & -> & ->).
  cbn [heap trace].
  destruct (sneakpeekUrl (argv_apiUrl argv) (argv_project argv) info) as [e|url].
  - rewrite <- app_assoc. reflexivity.
  - destruct (js_nullish (sha info)); [|destruct (js_nullish (argv_gitlabProject argv))];
      f_equal; f_equal; rewrite <- ?app_assoc; cbn [app]; rewrite <- ?app_assoc;
      reflexivity.
Qed.

(** X11: what [uploadCommand] does and how it ends is a function of its
    arguments and of the world alone: the objects that exist when it is
    called, [DEFAULTS] among them, have no part in it.  The flags object
    has all five properties, so no default ever reaches the request, also
    not for a flag that is undefined. *)
Theorem uploadCommand_ignores_heap (w : World) (argv : Argv) :
  ∃ outcome events,
    ∀ st,
      (uploadCommand w argv st).1 = outcome
      ∧ trace (uploadCommand w argv st).2 = trace st ++ events.
Proof.
  destruct (gitInfo_run w) as (info & gevs & Hgit & _).
  pose proof (uploadCommand_full w argv info gevs Hgit) as Hfull. cbv zeta in Hfull.
  assert (Hdone : ∀ (r : exn + promise ()) evs,
            (∀ st, ∃ h', (∀ l, l ∈ dom (heap st) → h' !! l = heap st !! l)
                         ∧ uploadCommand w argv st
                           = (r, {| heap := h'; trace := trace st ++ evs |})) →
            ∃ outcome events, ∀ st,
              (uploadCommand w argv st).1 = outcome
              ∧ trace (uploadCommand w argv st).2 = trace st ++ events).
  { intros r evs H. exists r, evs. intros st. destruct (H st) as (h' & _ & ->).
    split; reflexivity. }
  destruct (statSync w (argv_path argv)) as [msg|[|]];
    [exact (Hdone _ _ Hfull)| |exact (Hdone _ _ Hfull)].
  destruct (settle (tmpNameSync w) Pending (stream_events w)) as [|zipfile|e];
    [exact (Hdone _ _ Hfull)| |exact (Hdone _ _ Hfull)].
  destruct (sneakpeekUrl (argv_apiUrl argv) (argv_project argv) info) as [e|url];
    [exact (Hdone _ _ Hfull)|].
  destruct (js_nullish (sha info)); [exact (Hdone _ _ Hfull)|].
  destruct (js_nullish (argv_gitlabProject argv)); exact (Hdone _ _ Hfull).
Qed.



(** X13: when the archive is written but the revision resolves to neither
    a tag nor a branch, [uploadCommand] does not throw: the error of
    [sneakpeekUrl] rejects the promise of its last statement, which
    nothing handles.  By then the temporary archive has been written and
    the git commands have run; no request is made. *)
Theorem uploadCommand_unresolved_revision (w : World) (argv : Argv) (st : State)
    (rest : list stream_event) (info : RevisionInfo) :
  statSync w (argv_path argv) = stat_ok true →
  stream_events w = output_finish :: rest →
  (gitInfo w st).1 = inr info →
  reftype info = None →
  ∃ h' gevs,
    Forall (λ ev, ∃ a, ev = exec_call a) gevs
    ∧ uploadCommand w argv st
      = (inr (Rejected (ExnString "Current project is neither on a tag nor a branch")),
         {| heap := h';
            trace :=
              trace st
              ++ stat_call (argv_path argv) :: zip_calls w (argv_path argv)
              ++ console_log (LString ("Uploading to "
                                       +:+ js_to_string (argv_apiUrl argv)))
                 :: gevs |}).
Proof.
  intros Hstat Hev Hinfo Hnone.
  destruct (gitInfo_result w st info Hinfo) as (gevs & Hgit & Hexec).
  destruct (uploadCommand_full w argv info gevs Hgit st) as (h' & _ & Hfull).
  cbv zeta in Hfull.
  assert (Hurl : sneakpeekUrl (argv_apiUrl argv) (argv_project argv) info
                 = inl (ExnString not_on_ref)).
  { unfold sneakpeekUrl. rewrite Hnone. reflexivity. }
  rewrite Hstat, settle_first, Hev, Hurl in Hfull.
  exists h', gevs. split; [exact Hexec|]. rewrite Hfull. reflexivity.
Qed.

Lemma uploadCommand_unresolved_revision_witness :
  (uploadCommand world_no_repo argv_demo (init_state ∅)).1
  = inr (Rejected (ExnString "Current project is neither on a tag nor a branch"))
  ∧ create_write_stream "/tmp/tmp-4711"
    ∈ trace (uploadCommand world_no_repo argv_demo (init_state ∅)).2.
Proof.
  destruct (uploadCommand_unresolved_revision world_no_repo argv_demo (init_state ∅) []
              {| sha := JNull; reftype := None; ref := JNull |})
    as (h' & gevs & _ & ->); [reflexivity..|].
  split; [reflexivity|]. cbn [snd trace].
  apply elem_of_app. right. right. apply elem_of_app. left.
  unfold zip_calls. right. right. left.
Defined.

(** X14: for a path that is a directory, [uploadCommand] goes on to the
    upload exactly when the first stream event is the finish of the output
    file.  When the first event is an archive error, or when no event
    comes at all and the promise of [zip] stays pending, it neither
    announces an upload nor touches the request; an archive error that
    comes after the finish changes nothing. *)
Theorem upload_starts_iff_finished_first (w : World) (argv : Argv) (st : State) :
  statSync w (argv_path argv) = stat_ok true →
  ∃ new,
    trace (uploadCommand w argv st).2 = trace st ++ new
    ∧ ((∃ rest, stream_events w = output_finish :: rest)
       ↔ console_log (LString ("Uploading to " +:+ js_to_string (argv_apiUrl argv)))
         ∈ new)
    ∧ ((∃ ev, ev ∈ new ∧ is_request ev = true)
       → ∃ rest, stream_events w = output_finish :: rest)
    ∧ (stream_events w = [] → (uploadCommand w argv st).1 = inr Pending).
Proof.
  intros Hstat.
  destruct (gitInfo_run w) as (info & gevs & Hgit & _).
  destruct (uploadCommand_full w argv info gevs Hgit st) as (h' & _ & Hfull).
  cbv zeta in Hfull. rewrite Hstat, settle_first in Hfull.
  assert (Hzip : ∀ ev, ev ∈ stat_call (argv_path argv) :: zip_calls w (argv_path argv) →
                       is_request ev = false
                       ∧ ∀ s, ev ≠ console_log (LString ("Uploading to " +:+ s))).
  { intros ev Hin. unfold zip_calls in Hin.
    repeat (apply elem_of_cons in Hin as [->|Hin]); try (inversion Hin; fail);
      (split; [reflexivity|]); intros s Heq; discriminate Heq. }
  assert (Hstop : ∀ r,
            uploadCommand w argv st
            = (r, {| heap := h';
                     trace := trace st
                              ++ stat_call (argv_path argv)
                                 :: zip_calls w (argv_path argv) |}) →
            (∀ rest, stream_events w ≠ output_finish :: rest) →
            (stream_events w = [] → r = inr Pending) →
            ∃ new,
              trace (uploadCommand w argv st).2 = trace st ++ new
              ∧ ((∃ rest, stream_events w = output_finish :: rest)
                 ↔ console_log (LString ("Uploading to "
                                         +:+ js_to_string (argv_apiUrl argv)))
                   ∈ new)
              ∧ ((∃ ev, ev ∈ new ∧ is_request ev = true)
                 → ∃ rest, stream_events w = output_finish :: rest)
              ∧ (stream_events w = [] → (uploadCommand w argv st).1 = inr Pending)).
  { intros r Hr Hno Hempty. rewrite Hr. cbn [fst snd trace].
    eexists. split; [reflexivity|]. split; [|split; [|exact Hempty]].
    - split; [intros [rest Hrest]; destruct (Hno rest Hrest)|].
      intros Hin. destruct (Hzip _ Hin) as [_ Hne]. destruct (Hne _ eq_refl).
    - intros (ev & Hin & Hreq). destruct (Hzip _ Hin) as [Hnoreq _]. congruence. }
  destruct (stream_events w) as [|[msg| |msg] evs] eqn:Hev.
  - apply (Hstop _ Hfull); [discriminate|reflexivity].
  - apply (Hstop _ Hfull); [discriminate|discriminate].
  - assert (Hgo : ∀ r tail,
              uploadCommand w argv st
              = (r, {| heap := h';
                       trace := trace st
                                ++ (stat_call (argv_path argv)
                                    :: zip_calls w (argv_path argv)
                                    ++ console_log
                                         (LString ("Uploading to "
                                                   +:+ js_to_string (argv_apiUrl argv)))
                                       :: gevs)
                                ++ tail |}) →
              ∃ new,
                trace (uploadCommand w argv st).2 = trace st ++ new
                ∧ ((∃ rest, output_finish :: evs = output_finish :: rest)
                   ↔ console_log (LString ("Uploading to "
                                           +:+ js_to_string (argv_apiUrl argv)))
                     ∈ new)
                ∧ ((∃ ev, ev ∈ new ∧ is_request ev = true)
                   → ∃ rest, output_finish :: evs = output_finish :: rest)
                ∧ (output_finish :: evs = [] → (uploadCommand w argv st).1 = inr Pending)).
    { intros r tail Hr. rewrite Hr. cbn [fst snd trace].
      eexists. split; [reflexivity|]. split; [|split; [eauto|discriminate]].
      split; [intros _|eauto].
      apply elem_of_app. left. right. apply elem_of_app. right. left. }
    destruct (sneakpeekUrl (argv_apiUrl argv) (argv_project argv) info) as [e|url].
    + eapply (Hgo _ []). rewrite Hfull, app_nil_r. reflexivity.
    + destruct (js_nullish (sha info));
        [|destruct (js_nullish (argv_gitlabProject argv))];
        eapply Hgo; rewrite Hfull; rewrite <- ?app_assoc; reflexivity.
  - apply (Hstop _ Hfull); [discriminate|discriminate].
Qed.

Lemma upload_starts_iff_finished_first_witness :
  (uploadCommand (world_with ∅ [] (http_ok "{}")) argv_demo (init_state ∅)).1
  = inr Pending.
Proof.
  destruct (upload_starts_iff_finished_first (world_with ∅ [] (http_ok "{}"))
              argv_demo (init_state ∅))
    as (new & _ & _ & _ & Hpending); [reflexivity|].
  apply Hpending. reflexivity.
Defined.

(** X16: when the archive reports an error before the output file has
    finished, the promise of [zip] is rejected with that error, and
    [uploadCommand] ends there: after the path check it has done what
    [zip] does and nothing of [upload] (no announcement, no git command,
    no call on the request).  When the output file finishes first, the
    promise of [zip] is fulfilled with the name of the temporary file. *)
Theorem archive_error_rejects_and_stops (w : World) (argv : Argv) (st : State) :
  statSync w (argv_path argv) = stat_ok true →
  (∀ msg rest,
     stream_events w = archive_error msg :: rest →
     (∀ src s, (zip w src s).1 = inr (Rejected (ExnArchive msg)))
     ∧ ∃ h',
         uploadCommand w argv st
         = (inr (Rejected (ExnArchive msg)),
            {| heap := h';
               trace := trace st ++ stat_call (argv_path argv)
                        :: zip_calls w (argv_path argv) |})
         ∧ Forall (λ ev, is_request ev = false
                         ∧ (∀ a, ev ≠ exec_call a)
                         ∧ ∀ s, ev ≠ console_log (LString ("Uploading to " +:+ s)))
             (stat_call (argv_path argv) :: zip_calls w (argv_path argv)))
  ∧ (∀ rest,
       stream_events w = output_finish :: rest →
       ∀ src s, (zip w src s).1 = inr (Fulfilled (tmpNameSync w))).
Proof.
  intros Hstat. split.
  - intros msg rest Hev.
    assert (Hp : settle (tmpNameSync w) Pending (stream_events w)
                 = Rejected (ExnArchive msg)).
    { rewrite settle_first, Hev. reflexivity. }
    split.
    + intros src s. rewrite zip_run, Hp. reflexivity.
    + destruct (uploadCommand_run w argv st) as (h' & T & _ & _ & _ & _ & Hrun).
      exists h'. rewrite Hrun, pipeline_run, Hstat, Hp. split; [reflexivity|].
      unfold zip_calls. repeat constructor; discriminate.
  - intros rest Hev src s. rewrite zip_run, settle_first, Hev. reflexivity.
Qed.

Lemma archive_error_rejects_and_stops_witness :
  (uploadCommand (world_with ∅ [archive_error "EACCES"; output_finish] (http_ok "{}"))
     argv_demo (init_state ∅)).1
  = inr (Rejected (ExnArchive "EACCES")).
Proof.
  destruct (archive_error_rejects_and_stops
              (world_with ∅ [archive_error "EACCES"; output_finish] (http_ok "{}"))
              argv_demo (init_state ∅))
    as (Herr & _); [reflexivity|].
  destruct (Herr "EACCES" [output_finish]) as (_ & h' & Hrun & _); [reflexivity|].
  rewrite Hrun. reflexivity.
Defined.

(** ** The defaults *)

(** X15: [DEFAULTS] takes the API URL and the API key from the
    environment only when the variable has a non-empty value: an unset or
    empty SNEAKPEEK_API_URL gives the URL of the public host, an unset or
    empty SNEAKPEEK_API_KEY gives null.  So the default API URL is always a
    non-empty string and the default API key is never the empty string nor
    undefined; path, project and gitlabProject are null. *)
Theorem DEFAULTS_from_environment (env0 : gmap string string) :
  let D := DEFAULTS_object env0 in
  (∀ v, env0 !! "SNEAKPEEK_API_URL" = Some v → v ≠ EmptyString →
        D !! "apiUrl" = Some (JStr v))
  ∧ (env0 !! "SNEAKPEEK_API_URL" = None
     ∨ env0 !! "SNEAKPEEK_API_URL" = Some EmptyString →
     D !! "apiUrl" = Some (JStr "https://api.peek.digitpaint.nl"))
  ∧ (∀ v, env0 !! "SNEAKPEEK_API_KEY" = Some v → v ≠ EmptyString →
          D !! "apiKey" = Some (JStr v))
  ∧ (env0 !! "SNEAKPEEK_API_KEY" = None
     ∨ env0 !! "SNEAKPEEK_API_KEY" = Some EmptyString →
     D !! "apiKey" = Some JNull)
  ∧ (∃ u, D !! "apiUrl" = Some u ∧ js_truthy u = true)
  ∧ (∃ k, D !! "apiKey" = Some k ∧ (k = JNull ∨ js_truthy k = true))
  ∧ D !! "path" = Some JNull
  ∧ D !! "project" = Some JNull
  ∧ D !! "gitlabProject" = Some JNull
  ∧ heap (init_state env0) !! DEFAULTS = Some D.
Proof.
  intros D.
  assert (Hurl : D !! "apiUrl"
                 = Some (js_or (env_get env0 "SNEAKPEEK_API_URL")
                           (JStr "https://api.peek.digitpaint.nl"))) by reflexivity.
  assert (Hkey : D !! "apiKey" = Some (js_or (env_get env0 "SNEAKPEEK_API_KEY") JNull))
    by reflexivity.
  rewrite Hurl, Hkey. unfold js_or, env_get.
  repeat split.
  - intros v -> Hv. destruct v; [done|reflexivity].
  - intros [-> | ->]; reflexivity.
  - intros v -> Hv. destruct v; [done|reflexivity].
  - intros [-> | ->]; reflexivity.
  - destruct (env0 !! "SNEAKPEEK_API_URL") as [[|c r]|]; eexists; split; reflexivity.
  - destruct (env0 !! "SNEAKPEEK_API_KEY") as [[|c r]|]; eexists;
      (split; [reflexivity|]); auto.
Qed.
